(** * Verification of the path-routing core of go-httpd (package [route])

    The development embeds [route/cond.go], [route/route.go],
    [route/router.go] and [route/match.go], and the [Match] method of the
    HTTP router of package [httpd] that calls them.  Go strings are byte
    strings and are modelled as [list ascii]; the condition bitset
    ([uint64]) is modelled as [N] (only [|] and [&] are applied to it, so no
    wrap-around occurs); the [Vars] map is a [gmap]; slices are lists. *)

From Stdlib Require Import NArith Ascii String List Lia Bool.
From stdpp Require Import gmap strings list.

Local Open Scope N_scope.
Local Open Scope nat_scope.

(** ** Byte strings *)

Abbreviation str := (list ascii).

Definition lit (s : string) : str := list_ascii_of_string s.
Arguments lit s%_string : simpl never.

Definition ch (s : string) : ascii :=
  match s with String c _ => c | EmptyString => Ascii.zero end.
Arguments ch s%_string : simpl never.

Definition byte_eqb (a b : ascii) : bool := Ascii.eqb a b.

Fixpoint str_eqb (a b : str) : bool :=
  match a, b with
  | [], [] => true
  | x :: a', y :: b' => byte_eqb x y && str_eqb a' b'
  | _, _ => false
  end.

(** [strings.HasPrefix(s, prefix)] *)
Fixpoint HasPrefix (s prefix : str) {struct prefix} : bool :=
  match prefix, s with
  | [], _ => true
  | p :: prefix', c :: s' => byte_eqb p c && HasPrefix s' prefix'
  | _ :: _, [] => false
  end.

(** [strings.IndexByte(s, c)]; [None] stands for [-1]. *)
Fixpoint IndexByte (s : str) (c : ascii) : option nat :=
  match s with
  | [] => None
  | x :: s' => if byte_eqb x c then Some 0
               else match IndexByte s' c with
                    | Some i => Some (S i)
                    | None => None
                    end
  end.

Definition mem_byte (c : ascii) (cutset : str) : bool :=
  existsb (byte_eqb c) cutset.

Fixpoint TrimLeft (s cutset : str) : str :=
  match s with
  | [] => []
  | c :: s' => if mem_byte c cutset then TrimLeft s' cutset else s
  end.

Definition TrimRight (s cutset : str) : str :=
  rev (TrimLeft (rev s) cutset).

(** [strings.Trim(s, cutset)] for an ASCII cutset. *)
Definition Trim (s cutset : str) : str :=
  TrimRight (TrimLeft s cutset) cutset.

(** The white space of [strings.TrimSpace]: the six ASCII characters
    [\t \n \v \f \r] and space, and the UTF-8 encodings of the other code
    points of [unicode.IsSpace]. *)
Definition ascii_space : str :=
  [ascii_of_nat 9; ascii_of_nat 10; ascii_of_nat 11; ascii_of_nat 12;
   ascii_of_nat 13; ascii_of_nat 32].

Definition unicode_spaces : list str :=
  map (map ascii_of_nat)
    ([[194; 133]; [194; 160]; [225; 154; 128]] ++
     map (fun b => [226; 128; b]) (seq 128 11) ++
     [[226; 128; 168]; [226; 128; 169]; [226; 128; 175]; [226; 129; 159];
      [227; 128; 128]]).

Definition space_prefix_len (s : str) : nat :=
  match s with
  | [] => 0
  | c :: _ =>
      if mem_byte c ascii_space then 1
      else match filter (fun w => HasPrefix s w = true) unicode_spaces with
           | w :: _ => length w
           | [] => 0
           end
  end.

Fixpoint TrimSpaceLeft (fuel : nat) (s : str) : str :=
  match fuel with
  | 0 => s
  | S fuel' =>
      match space_prefix_len s with
      | 0 => s
      | n => TrimSpaceLeft fuel' (drop n s)
      end
  end.

Definition space_suffix_len (s : str) : nat :=
  match rev s with
  | [] => 0
  | c :: _ =>
      if mem_byte c ascii_space then 1
      else match filter (fun w => HasPrefix (rev s) (rev w) = true)
                   unicode_spaces with
           | w :: _ => length w
           | [] => 0
           end
  end.

Fixpoint TrimSpaceRight (fuel : nat) (s : str) : str :=
  match fuel with
  | 0 => s
  | S fuel' =>
      match space_suffix_len s with
      | 0 => s
      | n => TrimSpaceRight fuel' (take (length s - n) s)
      end
  end.

(** [strings.TrimSpace(s)].  Every round removes at least one byte, so
    [length s] rounds exhaust the white space on either side. *)
Definition TrimSpace (s : str) : str :=
  let s1 := TrimSpaceLeft (length s) s in
  TrimSpaceRight (length s1) s1.

(** ** cond.go *)

Definition CondFlags := N.

Definition CondMethodGET     : CondFlags := N.shiftl 1 0.
Definition CondMethodCONNECT : CondFlags := N.shiftl 1 1.
Definition CondMethodDELETE  : CondFlags := N.shiftl 1 2.
Definition CondMethodHEAD    : CondFlags := N.shiftl 1 3.
Definition CondMethodOPTIONS : CondFlags := N.shiftl 1 4.
Definition CondMethodPATCH   : CondFlags := N.shiftl 1 5.
Definition CondMethodPOST    : CondFlags := N.shiftl 1 6.
Definition CondMethodPUT     : CondFlags := N.shiftl 1 7.
Definition CondMethodTRACE   : CondFlags := N.shiftl 1 8.

(** [(fl & bit) != 0] *)
Definition has_flag (fl bit : CondFlags) : bool :=
  negb (N.eqb (N.land fl bit) 0).

(** One [if (fl & bit) != 0 { sb.WriteString(text) }] step. *)
Definition write_if (fl bit : CondFlags) (text : string) (sb : str) : str :=
  if has_flag fl bit then sb ++ lit text else sb.

Definition CondFlags_String (fl : CondFlags) : str :=
  if N.eqb fl 0 then lit "*"
  else
    let sb := [] in
    let sb := write_if fl CondMethodGET "|GET" sb in
    let sb := write_if fl CondMethodCONNECT "|CONNECT" sb in
    let sb := write_if fl CondMethodDELETE "|DELETE" sb in
    let sb := write_if fl CondMethodHEAD "|HEAD" sb in
    let sb := write_if fl CondMethodOPTIONS "|OPTIONS" sb in
    let sb := write_if fl CondMethodPATCH "|PATCH" sb in
    let sb := write_if fl CondMethodPOST "|POST" sb in
    let sb := write_if fl CondMethodPUT "|PUT" sb in
    let sb := write_if fl CondMethodTRACE "|TRACE" sb in
    match sb with
    | [] => lit "*"
    | _ :: b => b
    end.

(** Errors of the package, one constructor per [fmt.Errorf] site, plus the
    error handed back by [regexp.Compile]. *)
Inductive regexp_error :=
| ErrInvalidCharRange
| ErrInvalidEscape
| ErrMissingBracket
| ErrMissingParen
| ErrMissingRepeatArgument
| ErrInvalidRepeatOp
| ErrTrailingBackslash
| ErrUnexpectedParen
| ErrInvalidPerlOp
| ErrInvalidNamedCapture
| ErrOutsideFragment.

Inductive error :=
| MissingPathSeparator (pathPattern : str)
| EmptyPattern
| InvalidCondition (tok : str)
| DuplicateVariable (varName pathPattern : str)
| InvalidPatternSyntax (cause : regexp_error)
| OutsideBasePath (path basePath : str).

(** The [switch tok] of [ParseCondFlags]. *)
Definition method_bit (tok : str) : option CondFlags :=
  if str_eqb tok (lit "GET") then Some CondMethodGET
  else if str_eqb tok (lit "CONNECT") then Some CondMethodCONNECT
  else if str_eqb tok (lit "DELETE") then Some CondMethodDELETE
  else if str_eqb tok (lit "HEAD") then Some CondMethodHEAD
  else if str_eqb tok (lit "OPTIONS") then Some CondMethodOPTIONS
  else if str_eqb tok (lit "PATCH") then Some CondMethodPATCH
  else if str_eqb tok (lit "POST") then Some CondMethodPOST
  else if str_eqb tok (lit "PUT") then Some CondMethodPUT
  else if str_eqb tok (lit "TRACE") then Some CondMethodTRACE
  else None.

(** The [for _, tok := range tokens] loop; the flags accumulated so far are
    returned together with the error, as in the source. *)
Fixpoint ParseCondFlags_loop (f : CondFlags) (tokens : list str)
  : CondFlags * option error :=
  match tokens with
  | [] => (f, None)
  | tok :: rest =>
      match method_bit tok with
      | Some bit => ParseCondFlags_loop (N.lor f bit) rest
      | None => (f, Some (InvalidCondition tok))
      end
  end.

Definition ParseCondFlags (tokens : list str) : CondFlags * option error :=
  match tokens with
  | [tok] => if str_eqb tok (lit "*") then (0%N, None)
             else ParseCondFlags_loop 0%N tokens
  | _ => ParseCondFlags_loop 0%N tokens
  end.

(** [strings.Split(s, "|")]: the pieces of [s] between the bars. *)
Fixpoint Split_bar (s : str) : list str :=
  match s with
  | [] => [[]]
  | c :: s' =>
      if byte_eqb c (ch "|") then [] :: Split_bar s'
      else match Split_bar s' with
           | piece :: pieces => (c :: piece) :: pieces
           | [] => [[c]]
           end
  end.

(** ** The fragment of Go's [regexp] package used by the router

    [regexp.Compile], [regexp.QuoteMeta] and [FindStringSubmatch] belong to
    the Go standard library, not to the repository.  They are modelled here
    for a fragment of the RE2 syntax: ASCII literals, the escapes of
    punctuation and of [\n \t \r \f \v \a], [.], bracket classes, the
    Perl classes [\d \w \s] and their complements, capturing, named and
    [(?:] groups, alternation, the greedy operators [* + ?] (the first two
    on operands that cannot match the empty text) and the anchors [^ $].

    The rest of the syntax Go compiles makes [regexp_Compile] fail with
    [ErrOutsideFragment]: the non-greedy operators, flags, [\Q..\E],
    POSIX classes, [\b \A \z \x \p ...], counted repetition and a
    literal brace, a complemented Perl class inside brackets, a loop over an
    operand that can match the empty text, and every byte outside ASCII.  A
    rule whose expression leaves the fragment therefore does not compile in
    this model although Go stores a route for it; what is proved below of
    the compiled routes is proved of the rules inside the fragment.

    Matching is leftmost-first (backtracking order) over bytes, which is
    Go's matching on ASCII text; on other text Go steps over UTF-8 code
    points, which this model does not. *)

(** A set of bytes: ranges [lo..hi], possibly complemented. *)
Record cset := { cs_neg : bool; cs_ranges : list (ascii * ascii) }.

Definition byte_leb (a b : ascii) : bool :=
  Nat.leb (nat_of_ascii a) (nat_of_ascii b).

Definition cset_mem (c : ascii) (cs : cset) : bool :=
  xorb (cs_neg cs)
       (existsb (fun r => byte_leb (fst r) c && byte_leb c (snd r))
                (cs_ranges cs)).

Definition single (c : ascii) : list (ascii * ascii) := [(c, c)].

Definition ranges_digit : list (ascii * ascii) := [(ch "0", ch "9")].
Definition ranges_word : list (ascii * ascii) :=
  [(ch "0", ch "9"); (ch "A", ch "Z"); (ch "_", ch "_"); (ch "a", ch "z")].
Definition ranges_space : list (ascii * ascii) :=
  [(ascii_of_nat 9, ascii_of_nat 10); (ascii_of_nat 12, ascii_of_nat 13);
   (ch " ", ch " ")].

Inductive re :=
| REmpty
| RLit (c : ascii)
| RSet (cs : cset)
| RBol
| REol
| RCat (a b : re)
| RAlt (a b : re)
| RStar (a : re)
| RCap (i : nat) (a : re).

Inductive token :=
| TLit (c : ascii)
| TSet (cs : cset)
| TBol
| TEol
| TLParen
| TNonCap
| TRParen
| TBar
| TStar
| TPlus
| TQuest.

(** What a bracket class has read since its last complete item. *)
Inductive pending :=
| PNone
| PChar (lo : ascii)
| PDash (lo : ascii).

Inductive lexstate :=
| LNormal
| LEscape
| LParen
| LParenQ
| LParenP
| LName (first : bool)
| LClass0
| LClass (neg first : bool) (acc : list (ascii * ascii)) (p : pending)
| LClassEsc (neg : bool) (acc : list (ascii * ascii)) (p : pending).

Definition is_alnum (c : ascii) : bool :=
  cset_mem c {| cs_neg := false;
                cs_ranges := [(ch "0", ch "9"); (ch "A", ch "Z");
                              (ch "a", ch "z")] |}.

Definition is_ascii (c : ascii) : bool := Nat.ltb (nat_of_ascii c) 128.

(** The text is ASCII: every byte is a code point of its own. *)
Definition ascii_text (s : str) : bool := forallb is_ascii s.

(** The character an escape [\c] stands for, when it stands for one. *)
Definition escape_char (c : ascii) : regexp_error + ascii :=
  if negb (is_ascii c) then inl ErrOutsideFragment
  else if negb (is_alnum c) then inr c
  else if byte_eqb c (ch "n") then inr (ascii_of_nat 10)
  else if byte_eqb c (ch "t") then inr (ascii_of_nat 9)
  else if byte_eqb c (ch "r") then inr (ascii_of_nat 13)
  else if byte_eqb c (ch "f") then inr (ascii_of_nat 12)
  else if byte_eqb c (ch "v") then inr (ascii_of_nat 11)
  else if byte_eqb c (ch "a") then inr (ascii_of_nat 7)
  else inl ErrOutsideFragment.

(** The Perl class an escape [\c] stands for, with its complement flag. *)
Definition perl_class (c : ascii) : option cset :=
  if byte_eqb c (ch "d") then Some {| cs_neg := false; cs_ranges := ranges_digit |}
  else if byte_eqb c (ch "w") then Some {| cs_neg := false; cs_ranges := ranges_word |}
  else if byte_eqb c (ch "s") then Some {| cs_neg := false; cs_ranges := ranges_space |}
  else if byte_eqb c (ch "D") then Some {| cs_neg := true; cs_ranges := ranges_digit |}
  else if byte_eqb c (ch "W") then Some {| cs_neg := true; cs_ranges := ranges_word |}
  else if byte_eqb c (ch "S") then Some {| cs_neg := true; cs_ranges := ranges_space |}
  else None.

Definition flush (acc : list (ascii * ascii)) (p : pending)
  : list (ascii * ascii) :=
  match p with
  | PNone => acc
  | PChar lo => acc ++ single lo
  | PDash lo => acc ++ single lo ++ single (ch "-")
  end.

(** A character [c] read inside a bracket class as a class member. *)
Definition class_char (neg : bool) (acc : list (ascii * ascii)) (p : pending)
  (c : ascii) : regexp_error + (list token * lexstate) :=
  match p with
  | PNone => inr ([], LClass neg false acc (PChar c))
  | PChar lo => inr ([], LClass neg false (acc ++ single lo) (PChar c))
  | PDash lo =>
      if byte_leb lo c then inr ([], LClass neg false (acc ++ [(lo, c)]) PNone)
      else inl ErrInvalidCharRange
  end.

Definition lex_normal (c : ascii) : regexp_error + (list token * lexstate) :=
  if negb (is_ascii c) then inl ErrOutsideFragment
  else if byte_eqb c (ch "\") then inr ([], LEscape)
  else if byte_eqb c (ch "[") then inr ([], LClass0)
  else if byte_eqb c (ch "(") then inr ([], LParen)
  else if byte_eqb c (ch ")") then inr ([TRParen], LNormal)
  else if byte_eqb c (ch "|") then inr ([TBar], LNormal)
  else if byte_eqb c (ch "*") then inr ([TStar], LNormal)
  else if byte_eqb c (ch "+") then inr ([TPlus], LNormal)
  else if byte_eqb c (ch "?") then inr ([TQuest], LNormal)
  else if byte_eqb c (ch "^") then inr ([TBol], LNormal)
  else if byte_eqb c (ch "$") then inr ([TEol], LNormal)
  else if byte_eqb c (ch ".") then
    inr ([TSet {| cs_neg := true; cs_ranges := single (ascii_of_nat 10) |}],
         LNormal)
  else if byte_eqb c (ch "{") then inl ErrOutsideFragment
  else inr ([TLit c], LNormal).

Definition lex_class (neg first : bool) (acc : list (ascii * ascii))
  (p : pending) (c : ascii) : regexp_error + (list token * lexstate) :=
  if negb (is_ascii c) then inl ErrOutsideFragment
  else if byte_eqb c (ch "]") && negb first then
    inr ([TSet {| cs_neg := neg; cs_ranges := flush acc p |}], LNormal)
  else if byte_eqb c (ch "\") then inr ([], LClassEsc neg acc p)
  else if byte_eqb c (ch "[") then inl ErrOutsideFragment
  else if byte_eqb c (ch "-") then
    match p with
    | PChar lo => inr ([], LClass neg false acc (PDash lo))
    | _ => class_char neg acc p c
    end
  else class_char neg acc p c.

Definition lex_step (st : lexstate) (c : ascii)
  : regexp_error + (list token * lexstate) :=
  match st with
  | LNormal => lex_normal c
  | LEscape =>
      match perl_class c with
      | Some cs => inr ([TSet cs], LNormal)
      | None =>
          match escape_char c with
          | inl e => inl e
          | inr x => inr ([TLit x], LNormal)
          end
      end
  | LParen =>
      if byte_eqb c (ch "?") then inr ([], LParenQ)
      else match lex_normal c with
           | inl e => inl e
           | inr (toks, st') => inr (TLParen :: toks, st')
           end
  | LParenQ =>
      if byte_eqb c (ch ":") then inr ([TNonCap], LNormal)
      else if byte_eqb c (ch "P") then inr ([], LParenP)
      else inl ErrOutsideFragment
  | LParenP =>
      if byte_eqb c (ch "<") then inr ([], LName true)
      else inl ErrOutsideFragment
  | LName first =>
      if byte_eqb c (ch ">") then
        if first then inl ErrInvalidNamedCapture else inr ([TLParen], LNormal)
      else if cset_mem c {| cs_neg := false; cs_ranges := ranges_word |}
      then inr ([], LName false)
      else inl ErrInvalidNamedCapture
  | LClass0 =>
      if byte_eqb c (ch "^") then inr ([], LClass true true [] PNone)
      else lex_class false true [] PNone c
  | LClass neg first acc p => lex_class neg first acc p c
  | LClassEsc neg acc p =>
      match perl_class c with
      | Some cs =>
          match p with
          | PDash _ => inl ErrInvalidCharRange
          | _ => if cs_neg cs then inl ErrOutsideFragment
                 else inr ([], LClass neg false (flush acc p ++ cs_ranges cs)
                                      PNone)
          end
      | None =>
          match escape_char c with
          | inl e => inl e
          | inr x => class_char neg acc p x
          end
      end
  end.

Definition lex_finish (st : lexstate) : regexp_error + list token :=
  match st with
  | LNormal => inr []
  | LEscape => inl ErrTrailingBackslash
  | LParen => inr [TLParen]
  | LParenQ => inl ErrInvalidPerlOp
  | LParenP => inl ErrInvalidPerlOp
  | LName _ => inl ErrInvalidNamedCapture
  | _ => inl ErrMissingBracket
  end.

Fixpoint lex (st : lexstate) (s : str) : regexp_error + list token :=
  match s with
  | [] => lex_finish st
  | c :: s' =>
      match lex_step st c with
      | inl e => inl e
      | inr (toks, st') =>
          match lex st' s' with
          | inl e => inl e
          | inr rest => inr (toks ++ rest)
          end
      end
  end.

(** Concatenation and alternation of the collected pieces. *)
Fixpoint mkcat (rs : list re) : re :=
  match rs with
  | [] => REmpty
  | [r] => r
  | r :: rs' => RCat r (mkcat rs')
  end.

Fixpoint mkalt (rs : list re) : re :=
  match rs with
  | [] => REmpty
  | [r] => r
  | r :: rs' => RAlt r (mkalt rs')
  end.

(** The parser keeps, for the group being read, the alternatives already
    closed by a bar and the pieces of the current alternative (both in
    reverse), and one frame for every group that is still open. *)
Record frame := {
  f_cap : option nat;
  f_alts : list re;
  f_seq : list re
}.

Record pstate := {
  p_stack : list frame;
  p_alts : list re;
  p_seq : list re;
  p_ncap : nat;
  p_lastq : bool
}.

Definition pstate0 : pstate :=
  {| p_stack := []; p_alts := []; p_seq := []; p_ncap := 0; p_lastq := false |}.

Definition close_group (alts seq : list re) : re :=
  mkalt (rev (mkcat (rev seq) :: alts)).

Definition push_piece (st : pstate) (r : re) : pstate :=
  {| p_stack := p_stack st; p_alts := p_alts st; p_seq := r :: p_seq st;
     p_ncap := p_ncap st; p_lastq := false |}.

Definition open_group (st : pstate) (cap : option nat) (ncap : nat) : pstate :=
  {| p_stack := {| f_cap := cap; f_alts := p_alts st; f_seq := p_seq st |}
                :: p_stack st;
     p_alts := []; p_seq := []; p_ncap := ncap; p_lastq := false |}.

(** The expression can match the empty text. *)
Fixpoint nullable (r : re) : bool :=
  match r with
  | REmpty | RBol | REol | RStar _ => true
  | RLit _ | RSet _ => false
  | RCat a b => nullable a && nullable b
  | RAlt a b => nullable a || nullable b
  | RCap _ a => nullable a
  end.

(** A repetition operator applied to the last piece.  Go rejects an
    operator that follows another one, except [?], which then makes the
    operator before it non-greedy; and it compiles a loop ([loops]) over an
    operand that can match the empty text in a way of its own.  Both are
    outside the fragment. *)
Definition repeat_op (st : pstate) (loops : bool) (op : re -> re)
  : regexp_error + pstate :=
  if p_lastq st
  then inl (if loops then ErrInvalidRepeatOp else ErrOutsideFragment)
  else match p_seq st with
       | [] => inl ErrMissingRepeatArgument
       | r :: seq' =>
           if loops && nullable r then inl ErrOutsideFragment
           else inr {| p_stack := p_stack st; p_alts := p_alts st;
                       p_seq := op r :: seq'; p_ncap := p_ncap st;
                       p_lastq := true |}
       end.

Definition parse_step (st : pstate) (t : token) : regexp_error + pstate :=
  match t with
  | TLit c => inr (push_piece st (RLit c))
  | TSet cs => inr (push_piece st (RSet cs))
  | TBol => inr (push_piece st RBol)
  | TEol => inr (push_piece st REol)
  | TLParen => inr (open_group st (Some (S (p_ncap st))) (S (p_ncap st)))
  | TNonCap => inr (open_group st None (p_ncap st))
  | TBar =>
      inr {| p_stack := p_stack st;
             p_alts := mkcat (rev (p_seq st)) :: p_alts st;
             p_seq := []; p_ncap := p_ncap st; p_lastq := false |}
  | TRParen =>
      match p_stack st with
      | [] => inl ErrUnexpectedParen
      | f :: stack' =>
          let body := close_group (p_alts st) (p_seq st) in
          let node := match f_cap f with
                      | Some i => RCap i body
                      | None => body
                      end in
          inr {| p_stack := stack'; p_alts := f_alts f;
                 p_seq := node :: f_seq f; p_ncap := p_ncap st;
                 p_lastq := false |}
      end
  | TStar => repeat_op st true RStar
  | TPlus => repeat_op st true (fun r => RCat r (RStar r))
  | TQuest => repeat_op st false (fun r => RAlt r REmpty)
  end.

Fixpoint parse_tokens (st : pstate) (ts : list token) : regexp_error + pstate :=
  match ts with
  | [] => inr st
  | t :: ts' =>
      match parse_step st t with
      | inl e => inl e
      | inr st' => parse_tokens st' ts'
      end
  end.

(** A compiled expression: its source text, its syntax tree and
    [NumSubexp]. *)
Record Regexp := { re_expr : str; re_tree : re; NumSubexp : nat }.

Definition regexp_Compile (expr : str) : regexp_error + Regexp :=
  match lex LNormal expr with
  | inl e => inl e
  | inr ts =>
      match parse_tokens pstate0 ts with
      | inl e => inl e
      | inr st =>
          match p_stack st with
          | [] => inr {| re_expr := expr;
                         re_tree := close_group (p_alts st) (p_seq st);
                         NumSubexp := p_ncap st |}
          | _ :: _ => inl ErrMissingParen
          end
      end
  end.

(** [regexp.MustCompile] panics on an error; it is only applied to the two
    constant expressions of [route.go], which compile. *)
Definition MustCompile (expr : str) : Regexp :=
  match regexp_Compile expr with
  | inr rx => rx
  | inl _ => {| re_expr := expr; re_tree := REmpty; NumSubexp := 0 |}
  end.

(** [regexp.QuoteMeta]: a backslash before each of [\.+*?()|[]{}^$]. *)
Definition special (c : ascii) : bool := mem_byte c (lit "\.+*?()|[]{}^$").

Fixpoint QuoteMeta (s : str) : str :=
  match s with
  | [] => []
  | c :: s' => if special c then ch "\" :: c :: QuoteMeta s'
               else c :: QuoteMeta s'
  end.

(** The offsets [(start, end)] captured by each group, [None] for a group
    that took no part in the match. *)
Definition captures := list (option (nat * nat)).

Definition cont := nat -> str -> captures -> option (nat * captures).

(** Backtracking matcher in continuation-passing style.  [pos] is the offset
    of [s] in the whole text.  The inner loop of a star runs at most
    [length s] times: an iteration that consumes nothing is not repeated,
    which no compiled expression needs, its loops being over operands that
    cannot match the empty text. *)
Fixpoint rmatch (r : re) (pos : nat) (s : str) (caps : captures) (k : cont)
  {struct r} : option (nat * captures) :=
  match r with
  | REmpty => k pos s caps
  | RLit c =>
      match s with
      | x :: s' => if byte_eqb x c then k (S pos) s' caps else None
      | [] => None
      end
  | RSet cs =>
      match s with
      | x :: s' => if cset_mem x cs then k (S pos) s' caps else None
      | [] => None
      end
  | RBol => if Nat.eqb pos 0 then k pos s caps else None
  | REol => match s with [] => k pos s caps | _ :: _ => None end
  | RCat a b =>
      rmatch a pos s caps (fun pos' s' caps' => rmatch b pos' s' caps' k)
  | RAlt a b =>
      match rmatch a pos s caps k with
      | Some res => Some res
      | None => rmatch b pos s caps k
      end
  | RStar a =>
      (fix loop (n : nat) (pos : nat) (s : str) (caps : captures)
         : option (nat * captures) :=
         match n with
         | 0 => k pos s caps
         | S n' =>
             match rmatch a pos s caps
                     (fun pos' s' caps' =>
                        if Nat.ltb (length s') (length s)
                        then loop n' pos' s' caps' else None) with
             | Some res => Some res
             | None => k pos s caps
             end
         end) (length s) pos s caps
  | RCap i a =>
      rmatch a pos s caps
        (fun pos' s' caps' => k pos' s' (<[pred i := Some (pos, pos')]> caps'))
  end.

(** One match attempt anchored at offset [pos]: the end offset and the
    groups. *)
Definition match_at (rx : Regexp) (pos : nat) (s : str)
  : option (nat * captures) :=
  rmatch (re_tree rx) pos s (replicate (NumSubexp rx) None)
         (fun pos' _ caps => Some (pos', caps)).

(** Leftmost match at or after [pos]: start, end and groups. *)
Fixpoint search (rx : Regexp) (pos : nat) (s : str)
  : option (nat * nat * captures) :=
  match match_at rx pos s with
  | Some (pos', caps) => Some (pos, pos', caps)
  | None =>
      match s with
      | [] => None
      | _ :: s' => search rx (S pos) s'
      end
  end.

(** [s[a:b]] *)
Definition slice (s : str) (a b : nat) : str := take (b - a) (drop a s).

(** [re.FindStringSubmatch(s)]: [nil] (the empty list) when there is no
    match, else the matched text followed by one entry per group, empty for
    a group that took no part. *)
Definition FindStringSubmatch (rx : Regexp) (s : str) : list str :=
  match search rx 0 s with
  | None => []
  | Some (b, e, caps) =>
      slice s b e ::
      map (fun c => match c with
                    | Some (x, y) => slice s x y
                    | None => []
                    end) caps
  end.

(** The index slice of one match: [2 * (1 + NumSubexp)] offsets, [-1] for a
    group that took no part. *)
Definition loc := list Z.

Definition pad (b e : nat) (caps : captures) : loc :=
  Z.of_nat b :: Z.of_nat e ::
  concat (map (fun c => match c with
                        | Some (x, y) => [Z.of_nat x; Z.of_nat y]
                        | None => [(-1)%Z; (-1)%Z]
                        end) caps).

(** The loop of [re.allMatches] for [n = -1], walking the text once: [skip]
    counts the offsets inside the previous match, [prevEnd] is
    [prevMatchEnd]; an empty match right after a match is dropped. *)
Fixpoint allMatches (rx : Regexp) (pos : nat) (s : str) (skip : nat)
  (prevEnd : option nat) : list loc :=
  match skip with
  | S skip' =>
      match s with
      | [] => []
      | _ :: s' => allMatches rx (S pos) s' skip' prevEnd
      end
  | 0 =>
      match match_at rx pos s with
      | Some (e, caps) =>
          let found :=
            if Nat.eqb e pos && bool_decide (prevEnd = Some pos) then []
            else [pad pos e caps] in
          match s with
          | [] => found
          | _ :: s' =>
              found ++ allMatches rx (S pos) s' (pred (e - pos)) (Some e)
          end
      | None =>
          match s with
          | [] => []
          | _ :: s' => allMatches rx (S pos) s' 0 prevEnd
          end
      end
  end.

(** [re.FindAllSubmatchIndex(b, -1)] *)
Definition FindAllSubmatchIndex (rx : Regexp) (b : str) : list loc :=
  allMatches rx 0 b 0 None.

(** The loop of [re.Split]: [beg] and [end_] as in the Go source. *)
Fixpoint Split_loop (s : str) (matches : list loc) (beg end_ : nat)
  : list str :=
  match matches with
  | [] => if Nat.eqb end_ (length s) then [] else [drop beg s]
  | m :: rest =>
      let m0 := Z.to_nat (nth 0 m 0%Z) in
      let m1 := Z.to_nat (nth 1 m 0%Z) in
      (if Nat.eqb m1 0 then [] else [slice s beg m0])
      ++ Split_loop s rest m1 m0
  end.

(** [re.Split(s, -1)] *)
Definition Regexp_Split (rx : Regexp) (s : str) : list str :=
  if Nat.ltb 0 (length (re_expr rx)) && Nat.eqb (length s) 0 then [[]]
  else Split_loop s (allMatches rx 0 s 0 None) 0 0.

(** ** route.go *)

Definition reSplitOR : Regexp :=
  Eval vm_compute in MustCompile (lit "\s*\|\s*").

Definition reMatchVars : Regexp :=
  Eval vm_compute in
    MustCompile (lit "\{(?P<key>\w+)(?:\:\s*(?P<value>[^\}]*)|)\s*\}").

(** implicit pattern in "{name}" (no ":pattern") *)
Definition defaultVarPattern : str := lit "[^/]+".

(** [s[a:b]] with [int] offsets. *)
Definition zslice (s : str) (a b : Z) : str :=
  slice s (Z.to_nat a) (Z.to_nat b).

(** [loc[i]] *)
Definition at_ (l : loc) (i : nat) : Z := nth i l (-1)%Z.

(** [route.Conditions != 0 && (route.Conditions&conditions) == 0], the test
    under which the loop of [Match] skips a route. *)
Definition cond_skip (routeConditions conditions : CondFlags) : bool :=
  negb (N.eqb routeConditions 0)
  && N.eqb (N.land routeConditions conditions) 0.

Section Routing.

Context {HandlerT : Type}.

(** A [nil] map and an empty map are both [∅]; [Pattern] and [Handler] are
    [None] when [nil]. *)
Record Route := {
  Conditions : CondFlags;
  Pattern : option Regexp;
  Vars : gmap str nat;
  EntryPrefix : str;
  IsPrefix : bool;
  Handler : option HandlerT
}.

(** [Route{}] *)
Definition Route_zero : Route :=
  {| Conditions := 0%N; Pattern := None; Vars := ∅; EntryPrefix := [];
     IsPrefix := false; Handler := None |}.

Definition set_Conditions (r : Route) (c : CondFlags) : Route :=
  {| Conditions := c; Pattern := Pattern r; Vars := Vars r;
     EntryPrefix := EntryPrefix r; IsPrefix := IsPrefix r;
     Handler := Handler r |}.

Definition set_Pattern (r : Route) (p : option Regexp) : Route :=
  {| Conditions := Conditions r; Pattern := p; Vars := Vars r;
     EntryPrefix := EntryPrefix r; IsPrefix := IsPrefix r;
     Handler := Handler r |}.

Definition set_Vars (r : Route) (v : gmap str nat) : Route :=
  {| Conditions := Conditions r; Pattern := Pattern r; Vars := v;
     EntryPrefix := EntryPrefix r; IsPrefix := IsPrefix r;
     Handler := Handler r |}.

Definition set_EntryPrefix (r : Route) (p : str) : Route :=
  {| Conditions := Conditions r; Pattern := Pattern r; Vars := Vars r;
     EntryPrefix := p; IsPrefix := IsPrefix r; Handler := Handler r |}.

Definition set_IsPrefix (r : Route) (b : bool) : Route :=
  {| Conditions := Conditions r; Pattern := Pattern r; Vars := Vars r;
     EntryPrefix := EntryPrefix r; IsPrefix := b; Handler := Handler r |}.

Definition set_Handler (r : Route) (h : option HandlerT) : Route :=
  {| Conditions := Conditions r; Pattern := Pattern r; Vars := Vars r;
     EntryPrefix := EntryPrefix r; IsPrefix := IsPrefix r; Handler := h |}.

(** The text of the capture group of one variable: the default pattern
    unless group 2 took part in the match and is not empty. *)
Definition var_pattern (pathPattern : str) (l : loc) : str :=
  if (at_ l 4 >? -1)%Z then
    let pat := zslice pathPattern (at_ l 4) (at_ l 5) in
    if Nat.eqb (length pat) 0 then defaultVarPattern else pat
  else defaultVarPattern.

(** The [for varIndex, loc := range locations] loop of [Parse].  The state
    is the route, [resultPattern] and [plainStart]; a duplicate variable
    leaves the loop with the error. *)
Fixpoint Parse_vars (pathPattern : str) (locations : list loc)
  (varIndex : nat) (r : Route) (resultPattern : str) (plainStart : Z)
  : Route * str * Z * option error :=
  match locations with
  | [] => (r, resultPattern, plainStart, None)
  | l :: rest =>
      let varStart := at_ l 0 in
      let varEnd := at_ l 1 in
      (* add plain chunk to resultPattern (whatever comes before the var) *)
      let '(r, resultPattern) :=
        if (plainStart <? varStart)%Z then
          let chunk := zslice pathPattern plainStart varStart in
          let r := if (plainStart =? 0)%Z then set_EntryPrefix r chunk
                   else r in
          (r, resultPattern ++ QuoteMeta chunk)
        else (r, resultPattern) in
      let plainStart := varEnd in
      (* extract var name and pattern *)
      let varName := zslice pathPattern (at_ l 2) (at_ l 3) in
      let pat := var_pattern pathPattern l in
      (* memorize var *)
      let memo :=
        if negb (str_eqb varName (lit "_")) then
          match Vars r !! varName with
          | Some _ => inl (DuplicateVariable varName pathPattern)
          | None => inr (set_Vars r (<[varName := varIndex]> (Vars r)))
          end
        else inr r in
      match memo with
      | inl e => (r, resultPattern, plainStart, Some e)
      | inr r =>
          (* add var capture pattern *)
          let resultPattern := resultPattern ++ [ch "("] in
          let resultPattern := resultPattern ++ pat in
          let resultPattern := resultPattern ++ [ch ")"] in
          Parse_vars pathPattern rest (S varIndex) r resultPattern plainStart
      end
  end.

(** [Route.Parse(pathPattern)]: the route as the call leaves it, and the
    error ([None] for [nil]). *)
Definition Route_Parse (r : Route) (pathPattern : str)
  : Route * option error :=
  let pathPattern := TrimSpace pathPattern in
  match IndexByte pathPattern (ch "/") with
  | None => (r, Some (MissingPathSeparator pathPattern))
  | Some i =>
      let condstr :=
        Trim (take i pathPattern)
             [ch "|"; ch " "; ascii_of_nat 9; ascii_of_nat 13; ascii_of_nat 10] in
      let '(conditions, pathPattern) :=
        if Nat.ltb 0 (length condstr)
        then (Regexp_Split reSplitOR condstr, drop i pathPattern)
        else ([], pathPattern) in
      if Nat.eqb (length pathPattern) 0 then (r, Some EmptyPattern)
      else
        (* parse conditions *)
        match ParseCondFlags conditions with
        | (_, Some err) => (r, Some err)
        | (conds, None) =>
            let r := set_Conditions r conds in
            (* prefix? i.e. "/foo/" is a prefix while "/foo" and "/foo/!"
               are not. *)
            let c := last pathPattern in
            let '(r, pathPattern) :=
              if bool_decide (c = Some (ch "/")) then (set_IsPrefix r true, pathPattern)
              else if bool_decide (c = Some (ch "!"))
                   then (r, take (length pathPattern - 1) pathPattern)
                   else (r, pathPattern) in
            (* find vars *)
            let locations := FindAllSubmatchIndex reMatchVars pathPattern in
            if Nat.eqb (length locations) 0 then
              (* no vars *)
              (set_Pattern (set_Vars (set_EntryPrefix r pathPattern) ∅) None,
               None)
            else
              (* has vars; will build r.Pattern *)
              let r := set_EntryPrefix r [] in
              let r := set_Vars r ∅ in
              let resultPattern := [ch "^"] in
              match Parse_vars pathPattern locations 0 r resultPattern 0%Z with
              | (r, _, _, Some err) => (r, Some err)
              | (r, resultPattern, plainStart, None) =>
                  (* add any trailing plain chunk *)
                  let resultPattern :=
                    if (plainStart <? Z.of_nat (length pathPattern))%Z
                    then resultPattern ++
                         QuoteMeta (drop (Z.to_nat plainStart) pathPattern)
                    else resultPattern in
                  (* terminating "$", unless r.IsPrefix *)
                  let resultPattern :=
                    if negb (IsPrefix r) then resultPattern ++ [ch "$"]
                    else resultPattern in
                  (* compile regexp pattern *)
                  match regexp_Compile resultPattern with
                  | inl err => (r, Some (InvalidPatternSyntax err))
                  | inr re => (set_Pattern r (Some re), None)
                  end
              end
        end
  end.

(** ** router.go *)

Record Router := {
  BasePath : str;
  Routes : list Route
}.

(** [for i := len(BasePath) - 1; i >= 0 && BasePath[i] == '/'; i--
    { BasePath = BasePath[:i] }], with [n] standing for [i + 1]. *)
Fixpoint trim_slashes (n : nat) (basePath : str) : str :=
  match n with
  | 0 => basePath
  | S i =>
      if bool_decide (basePath !! i = Some (ch "/"))
      then trim_slashes i (take i basePath)
      else basePath
  end.

(** The "generic checks on Router" at the head of [Add]. *)
Definition normalize_BasePath (basePath : str) : str :=
  if Nat.ltb 0 (length basePath) then
    if str_eqb basePath (lit "/") then []
    else if negb (bool_decide (basePath !! 0 = Some (ch "/")))
         then ch "/" :: basePath
         else trim_slashes (length basePath) basePath
  else basePath.

(** [Router.Add(pattern, handler)].  The route pointer it returns is the
    index of the new element of [Routes], [None] for [nil]. *)
Definition Router_Add (r : Router) (pattern : str) (handler : HandlerT)
  : Router * (option nat * option error) :=
  let r := {| BasePath := normalize_BasePath (BasePath r);
              Routes := Routes r |} in
  (* new Route *)
  let r := {| BasePath := BasePath r; Routes := Routes r ++ [Route_zero] |} in
  let idx := length (Routes r) - 1 in
  (* parse *)
  match Route_Parse Route_zero pattern with
  | (_, Some err) =>
      ({| BasePath := BasePath r;
          Routes := take (length (Routes r) - 1) (Routes r) |},
       (None, Some err))
  | (route, None) =>
      let route := set_Handler route (Some handler) in
      ({| BasePath := BasePath r; Routes := <[idx := route]> (Routes r) |},
       (Some idx, None))
  end.

(** A [Match] holds a pointer into [Routes]: [MIndex] is the element the
    pointer addresses and [MRoute] is that element.  [values] is [None] when
    the slice is [nil]. *)
Record Match := {
  MIndex : nat;
  MRoute : Route;
  Path : str;
  values : option (list str)
}.

(** The body of the loop of [Match] for the route at index [i]: [None] for
    the paths that [continue] or fall out of the [if]. *)
Definition match_route (i : nat) (route : Route) (conditions : CondFlags)
  (path : str) : option Match :=
  (* check conditions *)
  if cond_skip (Conditions route) conditions then None
  (* check constant prefix *)
  else if Nat.ltb 0 (length (EntryPrefix route))
          && negb (HasPrefix path (EntryPrefix route)) then None
  else
    match Pattern route with
    | None =>
        (* no variables *)
        if IsPrefix route || str_eqb path (EntryPrefix route)
        then Some {| MIndex := i; MRoute := route; Path := path;
                     values := None |}
        else None
    | Some re =>
        (* check regexp *)
        let vals := FindStringSubmatch re path in
        if Nat.eqb (length vals) (1 + size (Vars route))
        then Some {| MIndex := i; MRoute := route; Path := path;
                     values := Some (drop 1 vals) |}
        else None
    end.

(** [for i := range r.Routes] *)
Fixpoint Match_scan (i : nat) (routes : list Route) (conditions : CondFlags)
  (path : str) : option Match :=
  match routes with
  | [] => None
  | route :: rest =>
      match match_route i route conditions path with
      | Some m => Some m
      | None => Match_scan (S i) rest conditions path
      end
  end.

(** [Router.Match(conditions, path)]: the match ([None] for [nil]) and the
    error ([None] for [nil]). *)
Definition Router_Match (r : Router) (conditions : CondFlags) (path : str)
  : option Match * option error :=
  if Nat.ltb 0 (length (BasePath r)) then
    if negb (HasPrefix path (BasePath r))
    then (None, Some (OutsideBasePath path (BasePath r)))
    else (Match_scan 0 (Routes r) conditions
                     (drop (length (BasePath r)) path), None)
  else (Match_scan 0 (Routes r) conditions path, None).

(** ** match.go *)

(** [func (m Match) Values() []string] *)
Definition Match_Values (m : Match) : list str := default [] (values m).

(** [kv[name] = m.values[index]] for every entry of [Vars]; an index past
    the end of [values] panics, which is [None]. *)
Definition Match_Vars (m : Match) : option (gmap str str) :=
  let vals := default [] (values m) in
  if bool_decide (map_Forall (fun _ index => index < length vals)
                             (Vars (MRoute m)))
  then Some ((fun index => default [] (vals !! index)) <$> Vars (MRoute m))
  else None.

(** [func (m Match) Var(name string, fallback ...string) string]; [None]
    for the index panic. *)
Definition Match_Var (m : Match) (name : str) (fallback : list str)
  : option str :=
  match Vars (MRoute m) !! name, values m with
  | Some i, Some vals => vals !! i
  | _, _ =>
      match fallback with
      | f :: _ => Some f
      | [] => Some []
      end
  end.

End Routing.

Arguments Route : clear implicits.
Arguments Router : clear implicits.
Arguments Match : clear implicits.

(** ** Notions used to state the properties of the compiled patterns *)

(** The expression is an alternation at its top level. *)
Definition top_alt (r : re) : bool :=
  match r with
  | RAlt _ _ => true
  | _ => false
  end.

(** ** A scan without the entry-prefix rejection

    The reference scan of the refinement statement about the entry prefix:
    the loop of [Match] with its "check constant prefix" step
    ([if len(route.EntryPrefix) > 0 && !strings.HasPrefix(path,
    route.EntryPrefix) { continue }]) left out and nothing else changed. *)

Section Naive.

Context {HandlerT : Type}.

Definition match_route_naive (i : nat) (route : Route HandlerT)
  (conditions : CondFlags) (path : str) : option (Match HandlerT) :=
  (* check conditions *)
  if cond_skip (Conditions route) conditions then None
  else
    match Pattern route with
    | None =>
        (* no variables *)
        if IsPrefix route || str_eqb path (EntryPrefix route)
        then Some {| MIndex := i; MRoute := route; Path := path;
                     values := None |}
        else None
    | Some re =>
        (* check regexp *)
        let vals := FindStringSubmatch re path in
        if Nat.eqb (length vals) (1 + size (Vars route))
        then Some {| MIndex := i; MRoute := route; Path := path;
                     values := Some (drop 1 vals) |}
        else None
    end.

Fixpoint Match_scan_naive (i : nat) (routes : list (Route HandlerT))
  (conditions : CondFlags) (path : str) : option (Match HandlerT) :=
  match routes with
  | [] => None
  | route :: rest =>
      match match_route_naive i route conditions path with
      | Some m => Some m
      | None => Match_scan_naive (S i) rest conditions path
      end
  end.

Definition Router_Match_naive (r : Router HandlerT) (conditions : CondFlags)
  (path : str) : option (Match HandlerT) * option error :=
  if Nat.ltb 0 (length (BasePath r)) then
    if negb (HasPrefix path (BasePath r))
    then (None, Some (OutsideBasePath path (BasePath r)))
    else (Match_scan_naive 0 (Routes r) conditions
                           (drop (length (BasePath r)) path), None)
  else (Match_scan_naive 0 (Routes r) conditions path, None).

(** A route as [Add] stores it: compiled by [Parse] from a fresh route, with
    its handler set. *)
Definition compiled (route : Route HandlerT) : Prop :=
  exists ruleText route0 handler,
    Route_Parse Route_zero ruleText = (route0, None)
    /\ route = set_Handler route0 handler.

(** The routes for which the prefix test is a shortcut.  A route without
    variables is an exact route: for a subtree route the prefix test is the
    only test there is.  A route with variables is compiled from a rule, and
    its pattern is not an alternation at its top level: no custom variable
    pattern closes its own capture group and opens an alternative of the
    whole expression. *)
Definition shortcut_safe (route : Route HandlerT) : Prop :=
  match Pattern route with
  | None => IsPrefix route = false
  | Some rx => top_alt (re_tree rx) = false /\ compiled route
  end.

(** A route matches on its own when the table that holds only this route,
    under the same base path, returns a match. *)
Definition matches_alone (r : Router HandlerT) (route : Route HandlerT)
  (conditions : CondFlags) (path : str) : Prop :=
  exists m,
    Router_Match {| BasePath := BasePath r; Routes := [route] |}
                 conditions path = (Some m, None).

End Naive.

(** The canonical method order, with the bit of each method. *)
Definition methods : list (CondFlags * string) :=
  [(CondMethodGET, "GET"); (CondMethodCONNECT, "CONNECT");
   (CondMethodDELETE, "DELETE"); (CondMethodHEAD, "HEAD");
   (CondMethodOPTIONS, "OPTIONS"); (CondMethodPATCH, "PATCH");
   (CondMethodPOST, "POST"); (CondMethodPUT, "PUT");
   (CondMethodTRACE, "TRACE")]%string.

Definition all_methods : CondFlags :=
  fold_right (fun m acc => N.lor (fst m) acc) 0%N methods.

(** The names of the methods set in [fl], in canonical order. *)
Definition set_methods (fl : CondFlags) : list str :=
  map (fun m => lit (snd m)) (filter (fun m => has_flag fl (fst m) = true) methods).

(** [strings.Join(pieces, "|")] *)
Fixpoint join_bar (pieces : list str) : str :=
  match pieces with
  | [] => []
  | [p] => p
  | p :: rest => p ++ ch "|" :: join_bar rest
  end.

Definition parses_back (split : str -> list str) (fl : CondFlags) : bool :=
  match ParseCondFlags (split (CondFlags_String fl)) with
  | (f, None) => N.eqb f fl
  | (_, Some _) => false
  end.

Definition renders_canonically (fl : CondFlags) : bool :=
  N.eqb fl 0 || str_eqb (CondFlags_String fl) (join_bar (set_methods fl)).

(** ** The scenarios of the specification, with [int] handlers as in
    [TestRouter] *)

Definition empty_router (basePath : string) : Router nat :=
  {| BasePath := lit basePath; Routes := [] |}.

Definition register (r : Router nat) (ruleText : string) (handler : nat)
  : Router nat :=
  fst (Router_Add r (lit ruleText) handler).

(** Scenario A: "/user/{id:[0-9]+}/{action}". *)
Definition scenarioA : Router nat :=
  register (empty_router "") "/user/{id:[0-9]+}/{action}" 1.

(** Scenario A with the exact route "/about" after it. *)
Definition about_router : Router nat := register scenarioA "/about" 2.

(** Scenario B: base path "/api", rule "GET /widgets/". *)
Definition scenarioB : Router nat :=
  register (empty_router "/api") "GET /widgets/" 1.

Definition widgets_route : Route nat :=
  fst (Route_Parse Route_zero (lit "GET /widgets/")).

(** The table of [TestRouter]. *)
Definition test_router : Router nat :=
  register
    (register
       (register (empty_router "/foo")
                 "/us.er/{id:[0-9a-zA-Z]+}/{action:\w+}/thing" 1)
       "/us.er/{q}" 2)
    "GET|POST /" 99.

(** A rule whose custom pattern closes the capture group and opens an
    alternative: the assembled expression is "^/a/(b)|(?:/c)$". *)
Definition split_router : Router nat :=
  register (empty_router "") "/a/{x:b)|(?:/c}" 1.

(** Scenario C: "/a/{x}" registered before "/a/{y:[0-9]+}". *)
Definition scenarioC : Router nat :=
  register (register (empty_router "") "/a/{x}" 1) "/a/{y:[0-9]+}" 2.

(** A base path is normalized when it is empty, or starts with "/" and does
    not end with "/". *)
Definition normalized (basePath : str) : Prop :=
  basePath = []
  \/ (head basePath = Some (ch "/") /\ last basePath <> Some (ch "/")).

(** The alternatives and pieces of the outermost level of the expression
    being parsed: those of the oldest open frame, or the current ones when
    no group is open. *)
Definition bottom (st : pstate) : list re * list re :=
  match last (p_stack st) with
  | Some f => (f_alts f, f_seq f)
  | None => (p_alts st, p_seq st)
  end.

(** The outermost level still starts with the pieces [base] (kept in
    reverse), has no bar yet, and, when no group is open, has a piece of its
    own after them; or it has seen a bar. *)
Definition keeps_base (base : list re) (st : pstate) : Prop :=
  fst (bottom st) <> []
  \/ (fst (bottom st) = []
      /\ exists more, snd (bottom st) = more ++ base
                      /\ (p_stack st = [] -> more <> [])).

(** A rule with an anonymous variable: the assembled expression is
    "^/a/([^/]+)$". *)
Definition anon_router : Router nat :=
  register (empty_router "") "/a/{_}" 1.

(** ** Notions used to state how the variables of a rule are captured *)

(** The lexer without its end-of-text test: the tokens read and the state
    reached. *)
Fixpoint lex_run (st : lexstate) (s : str)
  : regexp_error + (list token * lexstate) :=
  match s with
  | [] => inr ([], st)
  | c :: s' =>
      match lex_step st c with
      | inl e => inl e
      | inr (toks, st') =>
          match lex_run st' s' with
          | inl e => inl e
          | inr (rest, st'') => inr (toks ++ rest, st'')
          end
      end
  end.

(** The expression has no capture group. *)
Fixpoint cap_free (r : re) : bool :=
  match r with
  | RCat a b | RAlt a b => cap_free a && cap_free b
  | RStar a => cap_free a
  | RCap _ _ => false
  | _ => true
  end.

(** A custom pattern is plain when it compiles on its own and has no capture
    group. *)
Definition plain_pattern (pat : str) : Prop :=
  exists rx, regexp_Compile pat = inr rx /\ NumSubexp rx = 0.

(** The tree of a pattern compiled on its own. *)
Definition pattern_tree (pat : str) : re :=
  match regexp_Compile pat with
  | inr rx => re_tree rx
  | inl _ => REmpty
  end.

(** A parser state moved under the open frames [below], with [n] groups
    counted before it. *)
Definition lift (below : list frame) (n : nat) (st : pstate) : pstate :=
  {| p_stack := p_stack st ++ below; p_alts := p_alts st;
     p_seq := p_seq st; p_ncap := p_ncap st + n; p_lastq := p_lastq st |}.

(** No tree of the state has a capture group, and no open frame is one. *)
Definition state_cap_free (st : pstate) : Prop :=
  Forall (fun r => cap_free r = true) (p_alts st)
  /\ Forall (fun r => cap_free r = true) (p_seq st)
  /\ Forall (fun f => f_cap f = None
                      /\ Forall (fun r => cap_free r = true) (f_alts f)
                      /\ Forall (fun r => cap_free r = true) (f_seq f))
            (p_stack st).

(** One variable of a path pattern: the literal chunk in front of it, its
    name, and the text of its capture group. *)
Record segment := { seg_chunk : str; seg_name : str; seg_pat : str }.

(** The variables the loop of [Parse] goes through, with [plainStart] as the
    loop updates it. *)
Fixpoint path_segments (pathPattern : str) (locations : list loc)
  (plainStart : Z) : list segment :=
  match locations with
  | [] => []
  | l :: rest =>
      {| seg_chunk := zslice pathPattern plainStart (at_ l 0);
         seg_name := zslice pathPattern (at_ l 2) (at_ l 3);
         seg_pat := var_pattern pathPattern l |}
      :: path_segments pathPattern rest (at_ l 1)
  end.

(** [plainStart] when the loop is left. *)
Fixpoint last_end (locations : list loc) (plainStart : Z) : Z :=
  match locations with
  | [] => plainStart
  | l :: rest => last_end rest (at_ l 1)
  end.

(** What the loop appends to the expression for one variable. *)
Definition segment_text (sg : segment) : str :=
  QuoteMeta (seg_chunk sg) ++ ch "(" :: seg_pat sg ++ [ch ")"].

(** The tokens of a pattern read on its own. *)
Definition pattern_tokens (pat : str) : list token :=
  match lex_run LNormal pat with
  | inr (tp, _) => tp
  | inl _ => []
  end.

Definition segment_tokens (sg : segment) : list token :=
  map TLit (seg_chunk sg) ++ TLParen :: pattern_tokens (seg_pat sg) ++ [TRParen].

(** The pieces one variable stands for: the characters of its chunk and its
    group, numbered [i]. *)
Definition segment_items (i : nat) (sg : segment) : list re :=
  map RLit (seg_chunk sg) ++ [RCap i (pattern_tree (seg_pat sg))].

(** The pieces of the variables, their groups numbered from [S i] on. *)
Fixpoint segments_items (i : nat) (segs : list segment) : list re :=
  match segs with
  | [] => []
  | sg :: rest => segment_items (S i) sg ++ segments_items (S i) rest
  end.

(** The path pattern that [Parse] scans for variables: the rule text without
    its condition clause and without a trailing "!". *)
Definition rule_path (ruleText : str) : str :=
  let pathPattern := TrimSpace ruleText in
  match IndexByte pathPattern (ch "/") with
  | None => pathPattern
  | Some i =>
      let condstr :=
        Trim (take i pathPattern)
             [ch "|"; ch " "; ascii_of_nat 9; ascii_of_nat 13; ascii_of_nat 10] in
      let pathPattern :=
        if Nat.ltb 0 (length condstr) then drop i pathPattern
        else pathPattern in
      if bool_decide (last pathPattern = Some (ch "/")) then pathPattern
      else if bool_decide (last pathPattern = Some (ch "!"))
           then take (length pathPattern - 1) pathPattern
           else pathPattern
  end.

Definition rule_locations (ruleText : str) : list loc :=
  FindAllSubmatchIndex reMatchVars (rule_path ruleText).

(** The variables of a rule, in the order of their declaration. *)
Definition rule_segments (ruleText : str) : list segment :=
  path_segments (rule_path ruleText) (rule_locations ruleText) 0.

(** The literal text after the last variable. *)
Definition rule_tail (ruleText : str) : str :=
  drop (Z.to_nat (last_end (rule_locations ruleText) 0)) (rule_path ruleText).

(** The path written by putting the captured values between the literal
    chunks. *)
Fixpoint weave (segs : list segment) (vals : list str) : str :=
  match segs, vals with
  | sg :: segs', v :: vals' => seg_chunk sg ++ v ++ weave segs' vals'
  | _, _ => []
  end.


(** The route of Scenario A and the match it gives for "/user/42/edit". *)
Definition user_route : Route nat :=
  fst (Route_Parse Route_zero (lit "/user/{id:[0-9]+}/{action}")).

Definition user_match : Match nat :=
  {| MIndex := 0;
     MRoute := set_Handler user_route (Some 1);
     Path := lit "/user/42/edit";
     values := Some [lit "42"; lit "edit"] |}.

(** A rule whose first custom pattern turns its own capture group into a
    non-capturing one while its second one brings a group of its own: the
    assembled expression is "^/(?:a)/((b))$". *)
Definition shifted_router : Router nat :=
  register (empty_router "") "/{x:?:a}/{y:(b)}" 1.

(** ** route.go: [Route.String] *)

Section Rendering.

Context {HandlerT : Type}.

(** [fmt.Sprintf("{%s %s}", r.Conditions, pattern)], with [pattern] the
    source text of the compiled pattern, or the entry prefix of a route
    without one. *)
Definition Route_String (r : Route HandlerT) : str :=
  let pattern := match Pattern r with
                 | Some re => re_expr re
                 | None => EntryPrefix r
                 end in
  ch "{" :: CondFlags_String (Conditions r) ++ ch " " :: pattern ++ [ch "}"].

(** The expression [Parse] assembles for a rule with variables. *)
Definition rule_expr (ruleText : str) (isPrefix : bool) : str :=
  ch "^" :: concat (map segment_text (rule_segments ruleText))
    ++ QuoteMeta (rule_tail ruleText)
    ++ (if negb isPrefix then [ch "$"] else []).

End Rendering.

(** The names of the methods, as [ParseCondFlags] reads them. *)
Definition method_names : list str := map (fun m => lit (snd m)) methods.

(** ** The HTTP router of package [httpd]

    [httpd.Router] embeds [route.Router]; its handlers are [Handler]s.  A
    [Transaction] is modelled by the three fields the router reads and
    writes: the request method, [URL.Path] and [routeMatch]. *)

Section Httpd.

Context {HandlerT : Type}.

Record Transaction := {
  Method : str;
  URLPath : str;
  routeMatch : option (Match HandlerT)
}.

(** What a call returns, or the panic of a failed type assertion. *)
Inductive outcome (A : Type) :=
| Returned (a : A)
| Panic.

(** [func (r *Router) Match(t *Transaction) (Handler, error)]: the
    transaction as the call leaves it and what the call returns.  The error
    of [ParseCondFlags] is dropped, as in the source.  The handlers of the
    table are [Handler]s, as [Handle] and [HandleFunc] store them, or [nil];
    the assertion [m.Route.Handler.(Handler)] panics on [nil]. *)
Definition httpd_Router_Match (r : Router HandlerT) (t : Transaction)
  : Transaction * outcome (option HandlerT * option error) :=
  (* effective conditions of the transaction *)
  let conditions := fst (ParseCondFlags [Method t]) in
  (* find a matching route *)
  match Router_Match r conditions (URLPath t) with
  | (Some m, None) =>
      let t := {| Method := Method t; URLPath := URLPath t;
                  routeMatch := Some m |} in
      match Handler (MRoute m) with
      | Some h => (t, Returned _ (Some h, None))
      | None => (t, Panic _)
      end
  | (_, err) => (t, Returned _ (None, err))
  end.

(** [func (t *Transaction) RoutePath() string] *)
Definition Transaction_RoutePath (t : Transaction) : str :=
  match routeMatch t with
  | Some m => Path m
  | None => URLPath t
  end.

End Httpd.

Arguments Transaction : clear implicits.
Arguments Returned {A} a.
Arguments Panic {A}.

(** The table of Scenario B holding the GET route and a route for every
    method, and a request with a method the package does not know. *)
Definition any_router : Router nat :=
  register scenarioB "/status" 7.

Definition brew_request : Transaction nat :=
  {| Method := lit "BREW"; URLPath := lit "/api/status"; routeMatch := None |}.

(** A rule with anonymous variables between the named ones. *)
Definition gaps_route : Route nat :=
  fst (Route_Parse Route_zero (lit "/{_}/{id}/{_}/{action}")).

(** The route of the rule "/a/{_}", and a table that holds it in front of
    the rule "/a/{x}". *)
Definition anon_route : Route nat :=
  fst (Route_Parse Route_zero (lit "/a/{_}")).

Definition named_after_anon : Router nat :=
  register anon_router "/a/{x}" 2.

(** The route of a rule that ends in "/!". *)
Definition bang_route : Route nat :=
  fst (Route_Parse Route_zero (lit "GET /widgets/!")).

(** The match of the route "/status" of [any_router]. *)
Definition status_match : Match nat :=
  {| MIndex := 1;
     MRoute := set_Handler (fst (Route_Parse Route_zero (lit "/status")))
                           (Some 7);
     Path := lit "/status";
     values := None |}.
(** * Properties *)

(** ** Byte strings *)

Lemma byte_eqb_eq a b : byte_eqb a b = true <-> a = b.
Proof. unfold byte_eqb. apply Ascii.eqb_eq. Qed.

Lemma byte_eqb_refl a : byte_eqb a a = true.
Proof. by apply byte_eqb_eq. Qed.

Lemma byte_eqb_neq a b : byte_eqb a b = false <-> a <> b.
Proof. unfold byte_eqb. apply Ascii.eqb_neq. Qed.

Lemma str_eqb_eq a b : str_eqb a b = true <-> a = b.
Proof.
  revert b; induction a as [|x a IH]; intros [|y b]; simpl; try done.
  rewrite andb_true_iff, byte_eqb_eq, IH. split.
  - by intros [-> ->].
  - intros [= -> ->]. done.
Qed.

Lemma str_eqb_refl a : str_eqb a a = true.
Proof. by apply str_eqb_eq. Qed.

Lemma HasPrefix_app p s : HasPrefix (p ++ s) p = true.
Proof. induction p as [|c p IH]; simpl; [done|]. by rewrite byte_eqb_refl, IH. Qed.

Lemma HasPrefix_inv s p : HasPrefix s p = true -> s = p ++ drop (length p) s.
Proof.
  revert s; induction p as [|c p IH]; intros s; simpl; [done|].
  destruct s as [|x s]; [done|].
  rewrite andb_true_iff, byte_eqb_eq. intros [-> Hp].
  simpl. f_equal. by apply IH.
Qed.

Lemma HasPrefix_refl s : HasPrefix s s = true.
Proof. induction s as [|c s IH]; simpl; [done|]. by rewrite byte_eqb_refl, IH. Qed.

Lemma IndexByte_None s c : IndexByte s c = None <-> c ∉ s.
Proof.
  induction s as [|x s IH]; simpl.
  - split; [intros _; apply not_elem_of_nil | done].
  - destruct (byte_eqb x c) eqn:E.
    + apply byte_eqb_eq in E as ->. split; [done|]. intros Hn. destruct Hn. left.
    + apply byte_eqb_neq in E. rewrite not_elem_of_cons. destruct (IndexByte s c).
      * split; [done|]. intros [_ Hn]. by apply IH in Hn.
      * split; [|done]. intros _. split; [done|]. by apply IH.
Qed.

Lemma IndexByte_Some s c i : IndexByte s c = Some i -> i < length s.
Proof.
  revert i; induction s as [|x s IH]; intros i; simpl; [done|].
  destruct (byte_eqb x c); [intros [= <-]; lia|].
  destruct (IndexByte s c) as [j|]; [|done].
  intros [= <-]. specialize (IH j eq_refl). lia.
Qed.

Lemma TrimSpaceLeft_subseteq fuel s : TrimSpaceLeft fuel s ⊆ s.
Proof.
  revert s; induction fuel as [|fuel IH]; intros s; simpl; [done|].
  destruct (space_prefix_len s); [done|].
  etrans; [apply IH|]. apply subseteq_drop.
Qed.

Lemma TrimSpaceRight_subseteq fuel s : TrimSpaceRight fuel s ⊆ s.
Proof.
  revert s; induction fuel as [|fuel IH]; intros s; simpl; [done|].
  destruct (space_suffix_len s); [done|].
  etrans; [apply IH|]. apply subseteq_take.
Qed.

Lemma TrimSpace_subseteq s : TrimSpace s ⊆ s.
Proof.
  unfold TrimSpace. etrans; [apply TrimSpaceRight_subseteq|].
  apply TrimSpaceLeft_subseteq.
Qed.

(** ** Condition sets *)

Lemma below_512 (P : N -> bool) :
  forallb P (map N.of_nat (seq 0 512)) = true ->
  forall fl, (fl < 512)%N -> P fl = true.
Proof.
  intros Hall fl Hfl. rewrite forallb_forall in Hall. apply Hall.
  apply in_map_iff. exists (N.to_nat fl). split; [apply N2Nat.id|].
  apply in_seq. lia.
Qed.

Lemma defined_bits_below fl : N.land fl all_methods = fl -> (fl < 512)%N.
Proof.
  intros Hfl. pose proof (N.land_le_r fl all_methods) as Hle.
  rewrite Hfl in Hle. change all_methods with 511%N in Hle. lia.
Qed.

Lemma parses_back_eq split fl :
  parses_back split fl = true ->
  ParseCondFlags (split (CondFlags_String fl)) = (fl, None).
Proof.
  unfold parses_back.
  destruct (ParseCondFlags _) as [f [e|]]; [done|].
  by intros ->%N.eqb_eq.
Qed.

(** C8: for a bitset with only defined method bits, rendering and parsing
    the rendered tokens (split on "|", by [strings.Split] or by the
    [reSplitOR] of the rule parser) gives the bitset back; 0 renders as "*";
    a non-zero bitset renders its methods joined by "|" in the order GET,
    CONNECT, DELETE, HEAD, OPTIONS, PATCH, POST, PUT, TRACE; the token list
    ["*"] and the empty token list both parse to 0, which the condition
    test of the matching loop never skips. *)
Theorem C8_render_parse_roundtrip (fl : CondFlags)
  (Hfl : N.land fl all_methods = fl) :
  ParseCondFlags (Split_bar (CondFlags_String fl)) = (fl, None)
  /\ ParseCondFlags (Regexp_Split reSplitOR (CondFlags_String fl)) = (fl, None)
  /\ CondFlags_String 0%N = lit "*"
  /\ (fl <> 0%N -> CondFlags_String fl = join_bar (set_methods fl))
  /\ map snd methods
     = ["GET"; "CONNECT"; "DELETE"; "HEAD"; "OPTIONS"; "PATCH"; "POST";
        "PUT"; "TRACE"]%string
  /\ ParseCondFlags [lit "*"] = (0%N, None)
  /\ ParseCondFlags [] = (0%N, None)
  /\ (forall conditions,
        cond_skip (fst (ParseCondFlags [lit "*"])) conditions = false
        /\ cond_skip (fst (ParseCondFlags [])) conditions = false).
Proof.
  apply defined_bits_below in Hfl.
  repeat split; try reflexivity.
  - apply parses_back_eq. revert fl Hfl. apply below_512. by vm_compute.
  - apply parses_back_eq. revert fl Hfl. apply below_512. by vm_compute.
  - intros Hne.
    assert (renders_canonically fl = true) as Hr.
    { revert fl Hfl Hne. intros fl Hfl _. revert fl Hfl.
      apply below_512. by vm_compute. }
    unfold renders_canonically in Hr. apply orb_true_iff in Hr as [Hz|Hr].
    + by apply N.eqb_eq in Hz.
    + by apply str_eqb_eq.
Qed.

Lemma C8_render_parse_roundtrip_witness :
  N.land 65%N all_methods = 65%N
  /\ ParseCondFlags (Split_bar (CondFlags_String 65%N)) = (65%N, None)
  /\ CondFlags_String 65%N = lit "GET|POST".
Proof.
  split; [reflexivity|].
  split; [apply (C8_render_parse_roundtrip 65%N); reflexivity|].
  reflexivity.
Defined.

(** ** The matching loop *)

Section Scan.

Context {HandlerT : Type}.
Implicit Types (route : Route HandlerT) (r : Router HandlerT) (m : Match HandlerT).

Lemma match_route_Some i route conditions path m :
  match_route i route conditions path = Some m ->
  MIndex m = i /\ MRoute m = route /\ Path m = path.
Proof.
  unfold match_route. intros Hm.
  repeat case_match; simplify_eq; done.
Qed.

(** Whether a route matches does not depend on its position. *)
Lemma match_route_index i j route conditions path :
  is_Some (match_route i route conditions path) ->
  is_Some (match_route j route conditions path).
Proof.
  unfold match_route. intros [m Hm].
  repeat case_match; simplify_eq; eauto.
Qed.

Lemma match_route_index_None i j route conditions path :
  match_route i route conditions path = None ->
  match_route j route conditions path = None.
Proof.
  intros Hn. destruct (match_route j route conditions path) as [mj|] eqn:E; [|done].
  assert (is_Some (match_route i route conditions path)) as [m Hm].
  { eapply match_route_index. eauto. }
  congruence.
Qed.

(** The scan returns the match of the first route that matches. *)
Lemma Match_scan_Some i routes conditions path m :
  Match_scan i routes conditions path = Some m <->
  exists k route,
    routes !! k = Some route
    /\ match_route (i + k) route conditions path = Some m
    /\ forall k' route', k' < k -> routes !! k' = Some route' ->
         match_route (i + k') route' conditions path = None.
Proof.
  revert i. induction routes as [|route routes IH]; intros i; simpl.
  - split; [done|]. by intros (k & route & Hk & _).
  - destruct (match_route i route conditions path) as [m'|] eqn:Hr.
    + split.
      * intros [= ->]. exists 0, route. rewrite Nat.add_0_r.
        repeat split; [done|]. intros k' route' Hlt. lia.
      * intros (k & route' & Hk & Hm & Hfirst). destruct k as [|k].
        -- simpl in Hk. simplify_eq. rewrite Nat.add_0_r in Hm. congruence.
        -- specialize (Hfirst 0 route ltac:(lia) eq_refl).
           rewrite Nat.add_0_r in Hfirst. congruence.
    + rewrite IH. split.
      * intros (k & route' & Hk & Hm & Hfirst). exists (S k), route'.
        rewrite <- Nat.add_succ_comm. repeat split; [done..|].
        intros [|k'] route'' Hlt Hk'; simpl in Hk'.
        -- simplify_eq. by rewrite Nat.add_0_r.
        -- rewrite <- Nat.add_succ_comm. apply Hfirst; [lia|done].
      * intros (k & route' & Hk & Hm & Hfirst). destruct k as [|k].
        -- simpl in Hk. simplify_eq. rewrite Nat.add_0_r in Hm. congruence.
        -- exists k, route'. rewrite Nat.add_succ_comm. repeat split; [done..|].
           intros k' route'' Hlt Hk'. rewrite Nat.add_succ_comm.
           apply (Hfirst (S k')); [lia|done].
Qed.

Lemma Match_scan_None i routes conditions path :
  Match_scan i routes conditions path = None <->
  forall k route, routes !! k = Some route ->
    match_route (i + k) route conditions path = None.
Proof.
  revert i. induction routes as [|route routes IH]; intros i; simpl.
  - split; [|done]. by intros _ k route.
  - destruct (match_route i route conditions path) as [m'|] eqn:Hr.
    + split; [done|]. intros Hall. specialize (Hall 0 route eq_refl).
      rewrite Nat.add_0_r in Hall. congruence.
    + rewrite IH. split.
      * intros Hall [|k] route' Hk; simpl in Hk.
        -- simplify_eq. by rewrite Nat.add_0_r.
        -- rewrite <- Nat.add_succ_comm. by apply Hall.
      * intros Hall k route' Hk. rewrite Nat.add_succ_comm.
        by apply (Hall (S k)).
Qed.

(** The path handed to the loop once the base path is cut off. *)
Lemma Router_Match_inside r conditions path :
  HasPrefix path (BasePath r) = true ->
  Router_Match r conditions path
  = (Match_scan 0 (Routes r) conditions (drop (length (BasePath r)) path),
     None).
Proof.
  intros Hp. unfold Router_Match. rewrite Hp. simpl.
  destruct (BasePath r); done.
Qed.

Lemma Router_Match_outside r conditions path :
  HasPrefix path (BasePath r) = false ->
  Router_Match r conditions path
  = (None, Some (OutsideBasePath path (BasePath r))).
Proof.
  intros Hp. unfold Router_Match. rewrite Hp. simpl.
  destruct (BasePath r); done.
Qed.

Lemma matches_alone_iff r route conditions path :
  matches_alone r route conditions path <->
  HasPrefix path (BasePath r) = true
  /\ is_Some (match_route 0 route conditions
                (drop (length (BasePath r)) path)).
Proof.
  unfold matches_alone. destruct (HasPrefix path (BasePath r)) eqn:Hp.
  - split.
    + intros [m Hm]. rewrite Router_Match_inside in Hm by done. simpl in Hm.
      split; [done|]. destruct (match_route _ _ _ _); naive_solver.
    + intros [_ [m Hm]]. exists m. rewrite Router_Match_inside by done.
      simpl. by rewrite Hm.
  - split; [|by intros [? _]]. intros [m Hm].
    rewrite Router_Match_outside in Hm by done. done.
Qed.

End Scan.

(** C3: when a registered route would match the given conditions and path on
    its own, [Match] returns a match, and its route is the earliest
    registered one among all the routes that would match: it sits at or
    before any matching route, it matches, and no route registered before
    it does. *)
Theorem C3_first_registered_wins {HandlerT : Type} (r : Router HandlerT)
  (conditions : CondFlags) (path : str) (i : nat) (route : Route HandlerT)
  (Hi : Routes r !! i = Some route)
  (Hmatch : matches_alone r route conditions path) :
  exists m,
    Router_Match r conditions path = (Some m, None)
    /\ MIndex m <= i
    /\ Routes r !! MIndex m = Some (MRoute m)
    /\ matches_alone r (MRoute m) conditions path
    /\ forall k route', k < MIndex m -> Routes r !! k = Some route' ->
         ~ matches_alone r route' conditions path.
Proof.
  apply matches_alone_iff in Hmatch as [Hp Hsome].
  rewrite Router_Match_inside by done.
  remember (drop (length (BasePath r)) path) as rel eqn:Hrel.
  destruct (Match_scan 0 (Routes r) conditions rel) as [m|] eqn:Hscan.
  - apply Match_scan_Some in Hscan as (k & route' & Hk & Hm & Hfirst).
    simpl in Hm. destruct (match_route_Some _ _ _ _ _ Hm) as (Hidx & Hrt & _).
    exists m. split; [done|]. rewrite Hidx, Hrt.
    assert (k <= i) as Hle.
    { destruct (decide (k <= i)) as [|Hgt]; [done|].
      specialize (Hfirst i route ltac:(lia) Hi). simpl in Hfirst.
      destruct Hsome as [m' Hm'].
      apply (match_route_index_None _ 0) in Hfirst. congruence. }
    repeat split; [done..| |].
    + apply matches_alone_iff. split; [done|]. rewrite <- Hrel.
      eapply match_route_index. by eexists.
    + intros k' route'' Hlt Hk' [_ Hs]%matches_alone_iff. rewrite <- Hrel in Hs.
      specialize (Hfirst k' route'' Hlt Hk'). simpl in Hfirst.
      destruct Hs as [m' Hm'].
      apply (match_route_index_None _ 0) in Hfirst. congruence.
  - exfalso. rewrite Match_scan_None in Hscan.
    specialize (Hscan i route Hi). simpl in Hscan. destruct Hsome as [m' Hm'].
    apply (match_route_index_None _ 0) in Hscan. congruence.
Qed.

Lemma C3_first_registered_wins_witness :
  matches_alone scenarioC (default Route_zero (Routes scenarioC !! 1))
                0%N (lit "/a/7")
  /\ exists m,
       Router_Match scenarioC 0%N (lit "/a/7") = (Some m, None)
       /\ MIndex m <= 1
       /\ Routes scenarioC !! MIndex m = Some (MRoute m)
       /\ matches_alone scenarioC (MRoute m) 0%N (lit "/a/7")
       /\ forall k route', k < MIndex m -> Routes scenarioC !! k = Some route' ->
            ~ matches_alone scenarioC route' 0%N (lit "/a/7").
Proof.
  assert (matches_alone scenarioC (default Route_zero (Routes scenarioC !! 1))
                        0%N (lit "/a/7")) as Hm.
  { eexists. vm_compute. reflexivity. }
  split; [exact Hm|].
  apply (C3_first_registered_wins scenarioC 0%N (lit "/a/7") 1
           (default Route_zero (Routes scenarioC !! 1))); [|exact Hm].
  vm_compute. reflexivity.
Defined.

(** C5: under a non-empty base path, a path that does not start with the
    base path is answered with the [OutsideBasePath] error and a path inside
    the base path that no registered route matches is answered with no
    match and no error; the error is returned exactly for the paths outside
    the base path. *)
Theorem C5_outside_base_is_not_no_match {HandlerT : Type}
  (r : Router HandlerT) (conditions : CondFlags) (path : str)
  (Hbase : BasePath r <> []) :
  (HasPrefix path (BasePath r) = false ->
     Router_Match r conditions path
     = (None, Some (OutsideBasePath path (BasePath r))))
  /\ (HasPrefix path (BasePath r) = true ->
      (forall route, route ∈ Routes r ->
         ~ matches_alone r route conditions path) ->
      Router_Match r conditions path = (None, None))
  /\ (snd (Router_Match r conditions path) = None
      <-> HasPrefix path (BasePath r) = true).
Proof.
  split; [apply Router_Match_outside|]. split.
  - intros Hp Hnone. rewrite Router_Match_inside by done. f_equal.
    apply Match_scan_None. intros k route Hk. simpl.
    destruct (match_route k route conditions _) as [m|] eqn:Hm; [|done].
    exfalso. apply (Hnone route); [by eapply list_elem_of_lookup_2|].
    apply matches_alone_iff. split; [done|].
    eapply match_route_index. by eexists.
  - destruct (HasPrefix path (BasePath r)) eqn:Hp.
    + by rewrite Router_Match_inside.
    + by rewrite Router_Match_outside.
Qed.

Lemma C5_outside_base_is_not_no_match_witness :
  BasePath scenarioB <> []
  /\ Router_Match scenarioB CondMethodGET (lit "/other/widgets/")
     = (None, Some (OutsideBasePath (lit "/other/widgets/") (lit "/api")))
  /\ Router_Match scenarioB CondMethodPOST (lit "/api/widgets/anything")
     = (None, None).
Proof.
  assert (BasePath scenarioB <> []) as Hb by (vm_compute; discriminate).
  split; [exact Hb|]. split.
  - apply (C5_outside_base_is_not_no_match scenarioB CondMethodGET
             (lit "/other/widgets/") Hb). reflexivity.
  - apply (C5_outside_base_is_not_no_match scenarioB CondMethodPOST
             (lit "/api/widgets/anything") Hb); [reflexivity|].
    intros route Hin [m Hm].
    assert (Routes scenarioB = [default Route_zero (Routes scenarioB !! 0)])
      as Heq by (vm_compute; reflexivity).
    rewrite Heq in Hin.
    apply list_elem_of_singleton in Hin. subst route.
    assert (Router_Match
              {| BasePath := BasePath scenarioB;
                 Routes := [default Route_zero (Routes scenarioB !! 0)] |}
              CondMethodPOST (lit "/api/widgets/anything") = (None, None))
      as Hn by (vm_compute; reflexivity).
    rewrite Hn in Hm. discriminate.
Defined.

(** ** Registration *)

Section Add.

Context {HandlerT : Type}.
Implicit Types (route : Route HandlerT) (r : Router HandlerT).

Lemma trim_slashes_spec n (basePath : str) :
  n = length basePath ->
  exists k, k <= n
    /\ trim_slashes n basePath = take k basePath
    /\ last (take k basePath) <> Some (ch "/").
Proof.
  revert basePath. induction n as [|i IH]; intros basePath Hn; simpl.
  - exists 0. destruct basePath; done.
  - case_bool_decide as Hlast.
    + destruct (IH (take i basePath)) as (k & Hk & Heq & Hl).
      { rewrite length_take. lia. }
      exists k. rewrite take_take in Heq, Hl.
      replace (k `min` i) with k in * by lia. split; [lia|done].
    + exists (S i). split; [done|]. rewrite Hn, firstn_all.
      rewrite last_lookup, <- Hn. done.
Qed.

Lemma normalized_fixed (basePath : str) :
  normalized basePath -> normalize_BasePath basePath = basePath.
Proof.
  intros [->|[Hh Hl]]; [done|]. unfold normalize_BasePath.
  destruct basePath as [|c rest] eqn:Hbp; [done|]. rewrite <- Hbp in *.
  assert (0 < length basePath) as Hlen by (subst; simpl; lia).
  replace (Nat.ltb 0 (length basePath)) with true
    by (symmetry; by apply Nat.ltb_lt).
  destruct (str_eqb basePath (lit "/")) eqn:Heq.
  { apply str_eqb_eq in Heq. rewrite Heq in Hl. done. }
  rewrite bool_decide_true; [simpl|by rewrite <- head_lookup].
  destruct (length basePath) as [|i] eqn:Hi; [lia|]. simpl.
  rewrite bool_decide_false; [done|].
  rewrite last_lookup, Hi in Hl. done.
Qed.

(** A base path that begins with "/" leaves [Add] normalized. *)
Lemma normalize_rooted (basePath : str) :
  head basePath = Some (ch "/") -> normalized (normalize_BasePath basePath).
Proof.
  intros Hh. unfold normalize_BasePath.
  destruct (Nat.ltb 0 (length basePath)) eqn:Hlen; [|destruct basePath; done].
  destruct (str_eqb basePath (lit "/")); [by left|].
  rewrite bool_decide_true; [simpl|by rewrite <- head_lookup].
  destruct (trim_slashes_spec (length basePath) basePath eq_refl)
    as (k & Hk & -> & Hl).
  destruct k as [|k]; [left; by destruct basePath|].
  right. split; [|done]. destruct basePath; done.
Qed.

Lemma Router_Add_failure r ruleText handler err :
  snd (Route_Parse (HandlerT:=HandlerT) Route_zero ruleText) = Some err ->
  Router_Add r ruleText handler
  = ({| BasePath := normalize_BasePath (BasePath r); Routes := Routes r |},
     (None, Some err)).
Proof.
  unfold Router_Add. destruct (Route_Parse Route_zero ruleText) as [route [e|]];
    simpl; [|done].
  intros [= ->]. rewrite length_app. simpl.
  replace (length (Routes r) + 1 - 1) with (length (Routes r)) by lia.
  by rewrite take_app_length.
Qed.

End Add.

(** C2 (amended): when the compilation of the rule fails, [Add] returns the
    compilation error and a nil route, and the route sequence is unchanged,
    no partial insert survives; the base path is left as the normalization
    at the head of [Add] rewrites it, so the whole table is as before
    whenever its base path was already normalized. *)
Theorem C2_failed_add_keeps_routes {HandlerT : Type} (r : Router HandlerT)
  (ruleText : str) (handler : HandlerT) (err : error)
  (Hfail : snd (Route_Parse (HandlerT:=HandlerT) Route_zero ruleText)
           = Some err) :
  snd (Router_Add r ruleText handler) = (None, Some err)
  /\ Routes (fst (Router_Add r ruleText handler)) = Routes r
  /\ BasePath (fst (Router_Add r ruleText handler))
     = normalize_BasePath (BasePath r)
  /\ (normalized (BasePath r) -> fst (Router_Add r ruleText handler) = r).
Proof.
  rewrite (Router_Add_failure r ruleText handler err Hfail). simpl.
  repeat split. intros Hn. rewrite (normalized_fixed _ Hn). by destruct r.
Qed.

Lemma C2_failed_add_keeps_routes_witness :
  snd (Route_Parse (HandlerT:=nat) Route_zero (lit "GET widgets"))
  = Some (MissingPathSeparator (lit "GET widgets"))
  /\ snd (Router_Add scenarioB (lit "GET widgets") 2)
     = (None, Some (MissingPathSeparator (lit "GET widgets")))
  /\ fst (Router_Add scenarioB (lit "GET widgets") 2) = scenarioB.
Proof.
  assert (snd (Route_Parse (HandlerT:=nat) Route_zero (lit "GET widgets"))
          = Some (MissingPathSeparator (lit "GET widgets"))) as Hfail
    by (vm_compute; reflexivity).
  split; [exact Hfail|].
  pose proof (C2_failed_add_keeps_routes scenarioB (lit "GET widgets") 2 _ Hfail)
    as (Hres & _ & _ & Hsame).
  split; [exact Hres|]. apply Hsame. right. split; [reflexivity|].
  vm_compute. discriminate.
Defined.

(** C2 as stated fails: the table whose base path is "/" is not left as it
    was by a failed [Add], its base path becomes empty. *)
Lemma C2_counterexample :
  snd (Router_Add (empty_router "/") (lit "GET widgets") 2)
  = (None, Some (MissingPathSeparator (lit "GET widgets")))
  /\ fst (Router_Add (empty_router "/") (lit "GET widgets") 2)
     = empty_router ""
  /\ fst (Router_Add (empty_router "/") (lit "GET widgets") 2)
     <> empty_router "/".
Proof.
  split; [vm_compute; reflexivity|].
  split; [vm_compute; reflexivity|].
  vm_compute. discriminate.
Qed.

(** C6: a base path that does not begin with "/" only gets the "/" put in
    front; its trailing "/" stays after one [Add] and goes with the next
    one, so one [Add] neither normalizes it nor is idempotent on it. *)
Theorem C6_relative_base_path_keeps_slash :
  BasePath (register (empty_router "api/") "/x" 1) = lit "/api/"
  /\ ~ normalized (lit "/api/")
  /\ BasePath (register (register (empty_router "api/") "/x" 1) "/y" 2)
     = lit "/api"
  /\ normalize_BasePath (normalize_BasePath (lit "api/"))
     <> normalize_BasePath (lit "api/").
Proof.
  split; [vm_compute; reflexivity|].
  split.
  { intros [Hn|[_ Hl]]; [discriminate|]. apply Hl. reflexivity. }
  split; [vm_compute; reflexivity|].
  vm_compute. discriminate.
Qed.

(** ** Rule compilation *)

Section Parse.

Context {HandlerT : Type}.
Implicit Types (r route : Route HandlerT).

Lemma ParseCondFlags_loop_error f tokens f' e :
  ParseCondFlags_loop f tokens = (f', Some e) ->
  exists tok, e = InvalidCondition tok.
Proof.
  revert f. induction tokens as [|tok tokens IH]; intros f; simpl; [done|].
  destruct (method_bit tok); [apply IH|]. intros [= _ <-]. by eexists.
Qed.

Lemma ParseCondFlags_error tokens f e :
  ParseCondFlags tokens = (f, Some e) -> exists tok, e = InvalidCondition tok.
Proof.
  unfold ParseCondFlags. intros Hp.
  repeat case_match; simplify_eq; by eapply ParseCondFlags_loop_error.
Qed.

Lemma Parse_vars_error pathPattern locations varIndex r resultPattern
  plainStart r' resultPattern' plainStart' e :
  Parse_vars pathPattern locations varIndex r resultPattern plainStart
  = (r', resultPattern', plainStart', Some e) ->
  exists varName, e = DuplicateVariable varName pathPattern.
Proof.
  revert varIndex r resultPattern plainStart.
  induction locations as [|l locations IH];
    intros varIndex r resultPattern plainStart; simpl; [done|].
  intros Hp. repeat case_match; simplify_eq; try by eexists.
  all: by eapply IH.
Qed.

(** The errors of [Parse], by the place that raises them. *)
Lemma Route_Parse_error r ruleText e :
  snd (Route_Parse r ruleText) = Some e ->
  (e = MissingPathSeparator (TrimSpace ruleText)
   /\ ch "/" ∉ TrimSpace ruleText)
  \/ (ch "/" ∈ TrimSpace ruleText
      /\ ((exists tok, e = InvalidCondition tok)
          \/ (exists varName pathPattern,
                e = DuplicateVariable varName pathPattern)
          \/ (exists cause, e = InvalidPatternSyntax cause))).
Proof.
  unfold Route_Parse.
  destruct (IndexByte (TrimSpace ruleText) (ch "/")) as [i|] eqn:Hi; simpl.
  2:{ intros [= <-]. left. split; [done|]. by apply IndexByte_None. }
  assert (ch "/" ∈ TrimSpace ruleText) as Hin.
  { destruct (decide (ch "/" ∈ TrimSpace ruleText)) as [|Hn]; [done|].
    apply IndexByte_None in Hn. congruence. }
  apply IndexByte_Some in Hi.
  intros Hp. right. split; [done|].
  repeat case_match; simpl in *; simplify_eq.
  all: try (match goal with
            | Hl : (length ?x =? 0) = true |- _ =>
                apply Nat.eqb_eq in Hl; try rewrite length_drop in Hl; lia
            end).
  all: try (match goal with
            | Hc : ParseCondFlags _ = (_, Some _) |- _ =>
                left; by eapply ParseCondFlags_error
            end).
  all: try (match goal with
            | Hv : Parse_vars _ _ _ _ _ _ = (_, _, _, Some _) |- _ =>
                right; left; apply Parse_vars_error in Hv as [? ->]; by do 2 eexists
            end).
  all: right; right; by eexists.
Qed.

End Parse.

(** C7 (amended): a rule text that contains no "/" fails to compile with
    [MissingPathSeparator], the empty rule text included; [EmptyPattern] is
    a different error, and no rule text compiles to it, since the text left
    after the separator test always holds the "/". *)
Theorem C7_separator_before_empty {HandlerT : Type} (r : Route HandlerT)
  (ruleText : str) :
  (ch "/" ∉ ruleText ->
     snd (Route_Parse r ruleText)
     = Some (MissingPathSeparator (TrimSpace ruleText)))
  /\ snd (Route_Parse r []) = Some (MissingPathSeparator [])
  /\ snd (Route_Parse r ruleText) <> Some EmptyPattern
  /\ (forall pathPattern, MissingPathSeparator pathPattern <> EmptyPattern).
Proof.
  split; [|split; [reflexivity|split; [|done]]].
  - intros Hn. unfold Route_Parse.
    assert (IndexByte (TrimSpace ruleText) (ch "/") = None) as ->; [|done].
    apply IndexByte_None. intros Hin. apply Hn.
    by apply (TrimSpace_subseteq ruleText).
  - intros He. apply Route_Parse_error in He.
    destruct He as [[? _]|[_ [[? ?]|[(? & ? & ?)|[? ?]]]]]; done.
Qed.

Lemma C7_separator_before_empty_witness :
  (ch "/" ∉ lit "GET widgets")
  /\ snd (Route_Parse (HandlerT:=nat) Route_zero (lit "GET widgets"))
     = Some (MissingPathSeparator (lit "GET widgets")).
Proof.
  assert (ch "/" ∉ lit "GET widgets") as Hn.
  { intros Hin. apply list_elem_of_In in Hin. vm_compute in Hin.
    repeat (destruct Hin as [Hin|Hin]; [discriminate Hin|]). exact Hin. }
  split; [exact Hn|].
  apply (C7_separator_before_empty (HandlerT:=nat) Route_zero
           (lit "GET widgets")). exact Hn.
Defined.

(** C7 as stated fails on the empty rule text: it compiles to
    [MissingPathSeparator], not to [EmptyPattern]. *)
Lemma C7_counterexample :
  snd (Route_Parse (HandlerT:=nat) Route_zero (lit ""))
  = Some (MissingPathSeparator [])
  /\ snd (Route_Parse (HandlerT:=nat) Route_zero (lit ""))
     <> Some EmptyPattern.
Proof. split; [reflexivity|discriminate]. Qed.

Section VariableFree.

Context {HandlerT : Type}.
Implicit Types (route : Route HandlerT) (r : Router HandlerT).

(** The loop body on a route without a compiled pattern. *)
Lemma match_route_variable_free i route conditions path :
  Pattern route = None ->
  cond_skip (Conditions route) conditions = false ->
  is_Some (match_route i route conditions path)
  <-> (if IsPrefix route then HasPrefix path (EntryPrefix route) = true
       else path = EntryPrefix route).
Proof.
  intros Hfree Hcond. unfold match_route. rewrite Hcond, Hfree.
  destruct (IsPrefix route); simpl.
  - destruct (HasPrefix path (EntryPrefix route)) eqn:Hp.
    + rewrite andb_false_r. split; [done|]. by eexists.
    + destruct (EntryPrefix route) as [|c p]; [done|]. simpl.
      split; [by intros [? ?]|done].
  - destruct (str_eqb path (EntryPrefix route)) eqn:Heq.
    + apply str_eqb_eq in Heq. rewrite Heq, HasPrefix_refl, andb_false_r.
      split; [done|]. by eexists.
    + assert (path <> EntryPrefix route) as Hne.
      { intros ->. by rewrite str_eqb_refl in Heq. }
      split; [|done]. destruct (_ && _); by intros [? ?].
Qed.

Lemma strip_bang_nonempty (p : str) :
  ch "/" ∈ p -> last p = Some (ch "!") -> take (length p - 1) p <> [].
Proof.
  intros Hin Hl. apply last_Some in Hl as [q ->].
  rewrite length_app. simpl.
  replace (length q + 1 - 1) with (length q) by lia.
  rewrite take_app_length. intros ->.
  apply list_elem_of_singleton in Hin. discriminate.
Qed.

(** What [Parse] stores for a rule without variables: the path pattern
    itself, not empty, as the entry prefix. *)
Lemma Route_Parse_variable_free ruleText route :
  Route_Parse (HandlerT:=HandlerT) Route_zero ruleText = (route, None) ->
  Pattern route = None ->
  EntryPrefix route <> [] /\ Vars route = ∅ /\ Handler route = None.
Proof.
  unfold Route_Parse.
  destruct (IndexByte (TrimSpace ruleText) (ch "/")) as [i|] eqn:Hi;
    simpl; [|done].
  assert (exists a b, TrimSpace ruleText = a ++ ch "/" :: b /\ length a = i)
    as (a & b & Hsplit & Hlen).
  { clear -Hi. revert i Hi. induction (TrimSpace ruleText) as [|x s IH];
      intros i; simpl; [done|].
    destruct (byte_eqb x (ch "/")) eqn:E.
    - apply byte_eqb_eq in E as ->. intros [= <-]. by exists [], s.
    - destruct (IndexByte s (ch "/")) as [j|]; [|done]. intros [= <-].
      destruct (IH j eq_refl) as (a & b & -> & <-). by exists (x :: a), b. }
  assert (ch "/" ∈ TrimSpace ruleText) as Hin1.
  { rewrite Hsplit. set_solver. }
  assert (ch "/" ∈ drop i (TrimSpace ruleText)) as Hin2.
  { rewrite Hsplit, <- Hlen, drop_app_length. set_solver. }
  intros Hp Hfree.
  repeat case_match; simpl in *; simplify_eq.
  all: repeat split; try done.
  all: repeat match goal with
         | Hb : bool_decide _ = true |- _ => apply bool_decide_eq_true in Hb
         | Hb : bool_decide _ = false |- _ => apply bool_decide_eq_false in Hb
         end.
  all: simpl.
  all: try (by apply strip_bang_nonempty).
  all: by intros Heq; rewrite Heq in *; set_solver.
Qed.

End VariableFree.

(** C4: for a compiled variable-free route R whose condition bitset accepts
    the request, registered where no earlier route matches the remaining
    path P, [Match] selects R exactly when P is R's literal path (exact
    route) or P starts with R's literal path (subtree route); the literal
    path is the entry prefix [Parse] stored, and it is not empty. *)
Theorem C4_variable_free_route_match {HandlerT : Type} (r : Router HandlerT)
  (ruleText : str) (R : Route HandlerT) (handler : HandlerT) (i : nat)
  (conditions : CondFlags) (P : str)
  (Hcompiled : Route_Parse Route_zero ruleText = (R, None))
  (Hfree : Pattern R = None)
  (Hi : Routes r !! i = Some (set_Handler R (Some handler)))
  (Hcond : cond_skip (Conditions R) conditions = false)
  (Hearlier : forall k route, k < i -> Routes r !! k = Some route ->
                match_route k route conditions P = None) :
  ((exists m, Router_Match r conditions (BasePath r ++ P) = (Some m, None)
              /\ MIndex m = i)
   <-> (if IsPrefix R then HasPrefix P (EntryPrefix R) = true
        else P = EntryPrefix R))
  /\ EntryPrefix R <> [].
Proof.
  split; [|by eapply Route_Parse_variable_free].
  rewrite Router_Match_inside by apply HasPrefix_app.
  rewrite drop_app_length.
  rewrite <- (match_route_variable_free i (set_Handler R (Some handler))
                conditions P Hfree Hcond).
  split.
  - intros (m & [= Hscan] & Hidx).
    apply Match_scan_Some in Hscan as (k & route & Hk & Hm & _). simpl in Hm.
    destruct (match_route_Some _ _ _ _ _ Hm) as (Hk' & _ & _).
    rewrite Hidx in Hk'. subst k. rewrite Hi in Hk. simplify_eq. by eexists.
  - intros [m Hm]. exists m. split.
    + f_equal. apply Match_scan_Some. exists i, (set_Handler R (Some handler)).
      by repeat split.
    + by destruct (match_route_Some _ _ _ _ _ Hm).
Qed.

Lemma C4_variable_free_route_match_witness :
  Route_Parse Route_zero (lit "GET /widgets/") = (widgets_route, None)
  /\ exists m,
       Router_Match scenarioB CondMethodGET (lit "/api/widgets/anything")
       = (Some m, None) /\ MIndex m = 0.
Proof.
  assert (Route_Parse Route_zero (lit "GET /widgets/") = (widgets_route, None))
    as Hc by (vm_compute; reflexivity).
  split; [exact Hc|].
  apply (C4_variable_free_route_match scenarioB (lit "GET /widgets/")
           widgets_route 1 0 CondMethodGET (lit "/widgets/anything") Hc).
  - vm_compute. reflexivity.
  - vm_compute. reflexivity.
  - vm_compute. reflexivity.
  - intros k route Hk. lia.
  - vm_compute. reflexivity.
Defined.

(** ** The regular-expression fragment *)

(** Closes the bookkeeping goals of a matcher step: offsets and lengths by
    arithmetic, the rest by assumption. *)
Ltac stay_put :=
  repeat split; first [done | lia | simpl; lia | simpl; done | idtac].

(** Every success of the matcher goes through its continuation, further
    right in the text and with as many group slots. *)
Lemma rmatch_inv r : forall pos s caps k res,
  rmatch r pos s caps k = Some res ->
  exists pos' s' caps',
    pos <= pos' /\ length caps' = length caps /\ s' = drop (pos' - pos) s
    /\ pos' - pos <= length s
    /\ k pos' s' caps' = Some res.
Proof.
  induction r as [|c|cs| | |a IHa b IHb|a IHa b IHb|a IHa|i a IHa];
    intros pos s caps k res; simpl.
  - intros Hk. exists pos, s, caps. rewrite Nat.sub_diag. stay_put.
  - destruct s as [|x s']; [done|]. destruct (byte_eqb x c); [|done].
    intros Hk. exists (S pos), s', caps.
    replace (S pos - pos) with 1 by lia. stay_put.
  - destruct s as [|x s']; [done|]. destruct (cset_mem x cs); [|done].
    intros Hk. exists (S pos), s', caps.
    replace (S pos - pos) with 1 by lia. stay_put.
  - destruct (Nat.eqb pos 0); [|done].
    intros Hk. exists pos, s, caps. rewrite Nat.sub_diag. stay_put.
  - destruct s; [|done].
    intros Hk. exists pos, [], caps. rewrite Nat.sub_diag. stay_put.
  - intros Hm. apply IHa in Hm as (p1 & s1 & c1 & Hp1 & Hc1 & Hs1 & Hl1 & Hm).
    apply IHb in Hm as (p2 & s2 & c2 & Hp2 & Hc2 & Hs2 & Hl2 & Hm).
    exists p2, s2, c2. subst s1 s2. rewrite length_drop in Hl2.
    rewrite drop_drop in *.
    replace (p1 - pos + (p2 - p1)) with (p2 - pos) in * by lia.
    stay_put; congruence.
  - destruct (rmatch a pos s caps k) eqn:Ha.
    + intros [= <-]. by apply IHa in Ha.
    + apply IHb.
  - generalize (length s) at 1. intros n. revert pos s caps.
    induction n as [|n IHn]; intros pos s caps.
    + intros Hk. exists pos, s, caps. rewrite Nat.sub_diag. stay_put.
    + match goal with
      | |- context [rmatch a pos s caps ?k'] =>
          destruct (rmatch a pos s caps k') eqn:Ha
      end.
      * intros [= <-].
        apply IHa in Ha as (p1 & s1 & c1 & Hp1 & Hc1 & Hs1 & Hl1 & Hm).
        destruct (Nat.ltb (length s1) (length s)); [|done].
        apply IHn in Hm as (p2 & s2 & c2 & Hp2 & Hc2 & Hs2 & Hl2 & Hm).
        exists p2, s2, c2. subst s1 s2. rewrite length_drop in Hl2.
        rewrite drop_drop in *.
        replace (p1 - pos + (p2 - p1)) with (p2 - pos) in * by lia.
        stay_put; congruence.
      * intros Hk. exists pos, s, caps. rewrite Nat.sub_diag. stay_put.
  - intros Hm. apply IHa in Hm as (p1 & s1 & c1 & Hp1 & Hc1 & Hs1 & Hl1 & Hm).
    exists p1, s1, (<[pred i := Some (pos, p1)]> c1).
    rewrite length_insert. by repeat split.
Qed.

(** A match found by the search is a match of the tree at its start. *)
Lemma search_Some rx pos s b e caps :
  search rx pos s = Some (b, e, caps) ->
  pos <= b /\ match_at rx b (drop (b - pos) s) = Some (e, caps).
Proof.
  revert pos. induction s as [|x s IH]; intros pos; simpl.
  - destruct (match_at rx pos []) as [[e' caps']|] eqn:Hm; [|done].
    intros [= <- <- <-]. by rewrite Nat.sub_diag.
  - destruct (match_at rx pos (x :: s)) as [[e' caps']|] eqn:Hm.
    + intros [= <- <- <-]. by rewrite Nat.sub_diag.
    + intros Hs. apply IH in Hs as [Hle Hs]. split; [lia|].
      replace (b - pos) with (S (b - S pos)) by lia. done.
Qed.

Lemma match_at_length rx pos s e caps :
  match_at rx pos s = Some (e, caps) ->
  pos <= e /\ length caps = NumSubexp rx.
Proof.
  unfold match_at. intros Hm.
  apply rmatch_inv in Hm as (p1 & s1 & c1 & Hp1 & Hc1 & _ & _ & [= <- <-]).
  by rewrite length_replicate in Hc1.
Qed.

(** [FindStringSubmatch] returns [nil] or the whole match and one entry per
    group. *)
Lemma FindStringSubmatch_length rx s :
  FindStringSubmatch rx s = []
  \/ length (FindStringSubmatch rx s) = 1 + NumSubexp rx.
Proof.
  unfold FindStringSubmatch.
  destruct (search rx 0 s) as [[[b e] caps]|] eqn:Hs; [right|by left].
  apply search_Some in Hs as [_ Hm]. apply match_at_length in Hm as [_ Hm].
  simpl. by rewrite length_map, Hm.
Qed.

(** *** The expression assembled by [Parse] starts with its literal text *)

Lemma mkcat_cons r rs : rs <> [] -> mkcat (r :: rs) = RCat r (mkcat rs).
Proof. by destruct rs. Qed.

Lemma mkalt_cons r rs : rs <> [] -> mkalt (r :: rs) = RAlt r (mkalt rs).
Proof. by destruct rs. Qed.

Lemma close_group_alt alts seq : alts <> [] -> top_alt (close_group alts seq) = true.
Proof.
  intros Hne. unfold close_group. cbn [rev].
  destruct (rev alts) as [|a l] eqn:Hr.
  - rewrite <- (rev_involutive alts), Hr in Hne. done.
  - rewrite <- app_comm_cons, mkalt_cons; [done|]. by destruct l.
Qed.

Lemma lex_normal_plain c toks st :
  special c = false -> lex_normal c = inr (toks, st) ->
  toks = [TLit c] /\ st = LNormal.
Proof.
  destruct c as [[] [] [] [] [] [] [] []]; vm_compute; intros;
    try discriminate; by simplify_eq.
Qed.

Lemma lex_escape_special c :
  special c = true -> lex_step LEscape c = inr ([TLit c], LNormal).
Proof.
  destruct c as [[] [] [] [] [] [] [] []]; vm_compute; intros;
    try discriminate; reflexivity.
Qed.

Lemma lex_cons st c s ts :
  lex st (c :: s) = inr ts ->
  exists toks st' rest,
    lex_step st c = inr (toks, st') /\ lex st' s = inr rest
    /\ ts = toks ++ rest.
Proof.
  simpl. destruct (lex_step st c) as [e|[toks st']]; [done|].
  destruct (lex st' s) as [e|rest] eqn:Hl; [done|]. intros [= <-].
  by exists toks, st', rest.
Qed.

(** A quoted chunk is read back as its own characters. *)
Lemma lex_quoted chunk rest ts :
  lex LNormal (QuoteMeta chunk ++ rest) = inr ts ->
  exists ts', ts = map TLit chunk ++ ts' /\ lex LNormal rest = inr ts'.
Proof.
  revert ts. induction chunk as [|c chunk IH]; intros ts; simpl.
  - intros Hl. by exists ts.
  - destruct (special c) eqn:Hs.
    + rewrite <- !app_comm_cons. intros Hl.
      apply lex_cons in Hl as (toks & st' & rest' & Hstep & Hl & ->).
      assert (toks = [] /\ st' = LEscape) as [-> ->].
      { vm_compute in Hstep. by simplify_eq. }
      apply lex_cons in Hl as (toks & st' & rest'' & Hstep' & Hl & ->).
      rewrite (lex_escape_special c Hs) in Hstep'. simplify_eq.
      apply IH in Hl as (ts' & -> & Hl). by exists ts'.
    + rewrite <- app_comm_cons. intros Hl.
      apply lex_cons in Hl as (toks & st' & rest' & Hstep & Hl & ->).
      apply (lex_normal_plain c toks st' Hs) in Hstep as [-> ->].
      apply IH in Hl as (ts' & -> & Hl). by exists ts'.
Qed.

Lemma lex_LName first s ts :
  lex (LName first) s = inr ts -> exists ts', ts = TLParen :: ts'.
Proof.
  revert first ts. induction s as [|c s IH]; intros first ts; [done|].
  intros Hl. apply lex_cons in Hl as (toks & st' & rest & Hstep & Hl & ->).
  simpl in Hstep. repeat case_match; simplify_eq.
  - by eexists.
  - by apply IH in Hl.
Qed.

(** After an opening parenthesis the first token opens a group. *)
Lemma lex_LParen s ts :
  lex LParen s = inr ts ->
  exists t ts', ts = t :: ts' /\ (t = TLParen \/ t = TNonCap).
Proof.
  destruct s as [|c s].
  { intros [= <-]. eexists _, _. eauto. }
  intros Hl. apply lex_cons in Hl as (toks & st' & rest & Hstep & Hl & ->).
  simpl in Hstep. destruct (byte_eqb c (ch "?")).
  - simplify_eq. destruct s as [|c2 s]; [done|].
    apply lex_cons in Hl as (toks & st' & rest' & Hstep & Hl & ->).
    simpl in Hstep. repeat case_match; simplify_eq.
    + eexists _, _. eauto.
    + destruct s as [|c3 s]; [done|].
      apply lex_cons in Hl as (toks & st' & rest'' & Hstep & Hl & ->).
      simpl in Hstep. repeat case_match; simplify_eq.
      apply lex_LName in Hl as [ts' ->]. eexists _, _. eauto.
  - destruct (lex_normal c) as [e|[toks' st'']]; simplify_eq.
    eexists _, _. eauto.
Qed.

Lemma parse_tokens_app st ts1 ts2 :
  parse_tokens st (ts1 ++ ts2)
  = match parse_tokens st ts1 with
    | inl e => inl e
    | inr st' => parse_tokens st' ts2
    end.
Proof.
  revert st. induction ts1 as [|t ts1 IH]; intros st; simpl; [done|].
  destruct (parse_step st t); [done|]. apply IH.
Qed.

Lemma parse_lits st chunk :
  exists q,
    parse_tokens st (map TLit chunk)
    = inr {| p_stack := p_stack st; p_alts := p_alts st;
             p_seq := rev (map RLit chunk) ++ p_seq st;
             p_ncap := p_ncap st; p_lastq := q |}.
Proof.
  revert st. induction chunk as [|c chunk IH]; intros st; simpl.
  - exists (p_lastq st). by destruct st.
  - destruct (IH (push_piece st (RLit c))) as [q ->]. exists q. simpl.
    by rewrite <- app_assoc.
Qed.

Lemma last_cons_cons {A} (x y : A) l : last (x :: y :: l) = last (y :: l).
Proof. done. Qed.

Lemma keeps_base_step base st t st' :
  keeps_base base st -> parse_step st t = inr st' -> keeps_base base st'.
Proof.
  intros Hk Hstep. destruct st as [stack alts seq ncap lastq].
  unfold keeps_base, bottom in *. simpl in *.
  destruct stack as [|f stack].
  - (* no group is open *)
    simpl in Hk.
    destruct t; simpl in Hstep;
      unfold repeat_op, push_piece, open_group in Hstep; simpl in Hstep;
      try (destruct lastq; [done|]; destruct seq as [|r l]; [done|];
           simpl in Hstep; try (destruct (nullable r); [done|]));
      simplify_eq; simpl.
    all: try (by left).
    all: destruct Hk as [Hk|(-> & more & Hs & Hm)]; [by left|right].
    all: split; [done|].
    all: try (subst seq; first [ by eexists (_ :: more) | by exists more ]).
    all: destruct more as [|r0 more]; [by destruct Hm|].
    all: rewrite <- app_comm_cons in Hs; simplify_eq.
    all: by eexists (_ :: more).
  - (* inside a group: the outermost level is the oldest frame *)
    destruct (last (f :: stack)) as [fb|] eqn:Hlast;
      [|by apply last_None in Hlast].
    simpl in Hk.
    destruct t; simpl in Hstep;
      unfold repeat_op, push_piece, open_group in Hstep; simpl in Hstep;
      try (destruct lastq; [done|]; destruct seq as [|r l]; [done|];
           simpl in Hstep; try (destruct (nullable r); [done|]));
      simplify_eq; simpl.
    all: try rewrite last_cons_cons.
    all: try (rewrite Hlast;
              destruct Hk as [Hk|(Ha & more & Hs & Hm)]; [by left|right];
              split; [done|]; by exists more).
    all: destruct stack as [|f2 stack].
    all: try (rewrite last_cons_cons in Hlast; rewrite Hlast;
              destruct Hk as [Hk|(Ha & more & Hs & Hm)]; [by left|right];
              split; [done|]; by exists more).
    all: simpl in Hlast; simplify_eq; simpl.
    all: destruct Hk as [Hk|(Ha & more & Hs & Hm)]; [by left|right].
    all: split; [done|]; rewrite Hs; by eexists (_ :: more).
Qed.

Lemma keeps_base_tokens base ts : forall st st',
  keeps_base base st -> parse_tokens st ts = inr st' -> keeps_base base st'.
Proof.
  induction ts as [|t ts IH]; intros st st' Hk; simpl.
  - by intros [= <-].
  - destruct (parse_step st t) as [e|st1] eqn:Hstep; [done|].
    apply IH. by eapply keeps_base_step.
Qed.

(** An expression that reads "^", a quoted chunk and an opening parenthesis
    compiles, unless it is an alternation at its top level, to the start
    anchor followed by the characters of the chunk and by further pieces. *)
Lemma compile_shape chunk rest rx :
  regexp_Compile (ch "^" :: QuoteMeta chunk ++ ch "(" :: rest) = inr rx ->
  top_alt (re_tree rx) = false ->
  exists more,
    more <> [] /\ re_tree rx = mkcat (RBol :: map RLit chunk ++ more).
Proof.
  unfold regexp_Compile.
  destruct (lex LNormal _) as [e|ts] eqn:Hlex; [done|].
  apply lex_cons in Hlex as (toks & st1 & rest1 & Hstep & Hl & ->).
  assert (toks = [TBol] /\ st1 = LNormal) as [-> ->].
  { vm_compute in Hstep. by simplify_eq. }
  apply lex_quoted in Hl as (ts' & -> & Hl).
  apply lex_cons in Hl as (toks & st2 & rest2 & Hstep2 & Hl & ->).
  assert (toks = [] /\ st2 = LParen) as [-> ->].
  { vm_compute in Hstep2. by simplify_eq. }
  apply lex_LParen in Hl as (t & ts'' & -> & Ht).
  simpl. rewrite parse_tokens_app.
  destruct (parse_lits (push_piece pstate0 RBol) chunk) as [q ->].
  simpl. set (base := rev (map RLit chunk) ++ [RBol]).
  destruct (parse_step _ t) as [e|st3] eqn:Hopen; [done|].
  assert (keeps_base base st3) as Hk3.
  { destruct Ht as [-> | ->]; simpl in Hopen; simplify_eq;
      right; (split; [done|]); by exists []. }
  destruct (parse_tokens st3 ts'') as [e|st] eqn:Hrest; [done|].
  pose proof (keeps_base_tokens base ts'' st3 st Hk3 Hrest) as Hk.
  destruct (p_stack st) eqn:Hstack; [|done].
  intros [= <-]. simpl.
  unfold keeps_base, bottom in Hk. rewrite Hstack in Hk. simpl in Hk.
  destruct Hk as [Hk|(Ha & more & Hs & Hm)].
  { intros Htop. by rewrite close_group_alt in Htop. }
  intros _. exists (rev more). split.
  { intros Hr. apply Hm; [done|].
    by rewrite <- (rev_involutive more), Hr. }
  rewrite Ha, Hs. unfold close_group, base. simpl.
  rewrite !rev_app_distr, rev_involutive. done.
Qed.

Lemma byte_eqb_sym a b : byte_eqb a b = byte_eqb b a.
Proof.
  destruct (byte_eqb b a) eqn:E.
  - apply byte_eqb_eq in E as ->. apply byte_eqb_refl.
  - apply byte_eqb_neq. apply byte_eqb_neq in E. congruence.
Qed.

Lemma rmatch_lits chunk tail : forall pos s caps k res,
  tail <> [] ->
  rmatch (mkcat (map RLit chunk ++ tail)) pos s caps k = Some res ->
  HasPrefix s chunk = true.
Proof.
  induction chunk as [|c chunk IH]; intros pos s caps k res Ht; [done|].
  cbn [map app]. rewrite mkcat_cons by (by destruct chunk, tail).
  cbn [rmatch HasPrefix]. destruct s as [|x s]; [done|].
  rewrite (byte_eqb_sym c x). destruct (byte_eqb x c); [|done].
  intros Hm. simpl. by eapply IH.
Qed.

(** Such an expression only matches at offset 0, on a text that starts with
    the chunk. *)
Lemma rmatch_anchored chunk tail pos s caps k res :
  tail <> [] ->
  rmatch (mkcat (RBol :: map RLit chunk ++ tail)) pos s caps k = Some res ->
  pos = 0 /\ HasPrefix s chunk = true.
Proof.
  intros Ht. rewrite mkcat_cons by (by destruct chunk, tail).
  cbn [rmatch]. destruct (Nat.eqb pos 0) eqn:Hp; [|done].
  apply Nat.eqb_eq in Hp. intros Hm. split; [done|]. by eapply rmatch_lits.
Qed.

Lemma FindStringSubmatch_anchored rx chunk tail s :
  re_tree rx = mkcat (RBol :: map RLit chunk ++ tail) -> tail <> [] ->
  FindStringSubmatch rx s <> [] -> HasPrefix s chunk = true.
Proof.
  intros Htree Ht. unfold FindStringSubmatch.
  destruct (search rx 0 s) as [[[b e] caps]|] eqn:Hs; [|done]. intros _.
  apply search_Some in Hs as [_ Hm]. unfold match_at in Hm.
  rewrite Htree in Hm. apply rmatch_anchored in Hm as [-> Hp]; done.
Qed.

(** *** The variables found by [reMatchVars] *)

Lemma allMatches_In rx s : forall pos skip prevEnd l,
  l ∈ allMatches rx pos s skip prevEnd ->
  exists p e caps s',
    l = pad p e caps /\ match_at rx p s' = Some (e, caps).
Proof.
  induction s as [|x s IH]; intros pos skip prevEnd l; simpl.
  - destruct skip; [|by intros ?%elem_of_nil].
    destruct (match_at rx pos []) as [[e caps]|] eqn:Hm;
      [|by intros ?%elem_of_nil].
    case_match; [by intros ?%elem_of_nil|].
    intros ->%list_elem_of_singleton. by eexists _, _, _, _.
  - destruct skip; [|apply IH].
    destruct (match_at rx pos (x :: s)) as [[e caps]|] eqn:Hm; [|apply IH].
    intros [Hin|Hin]%elem_of_app; [|by eapply IH].
    case_match; [by apply elem_of_nil in Hin|].
    apply list_elem_of_singleton in Hin as ->. by eexists _, _, _, _.
Qed.

(** A variable is never empty: it starts with its opening brace. *)
Lemma reMatchVars_progress pos s e caps :
  match_at reMatchVars pos s = Some (e, caps) -> pos < e.
Proof.
  unfold match_at.
  assert (exists tail, re_tree reMatchVars = RCat (RLit (ch "{")) tail)
    as [tail ->] by (by eexists).
  cbn [rmatch]. destruct s as [|x s]; [done|].
  destruct (byte_eqb x (ch "{")); [|done].
  intros Hm.
  apply rmatch_inv in Hm as (p1 & s1 & c1 & Hp1 & _ & _ & _ & [= <- <-]).
  lia.
Qed.

Lemma reMatchVars_end pathPattern l :
  l ∈ FindAllSubmatchIndex reMatchVars pathPattern -> (0 < at_ l 1)%Z.
Proof.
  intros Hin. apply allMatches_In in Hin as (p & e & caps & s' & -> & Hm).
  apply reMatchVars_progress in Hm. unfold at_, pad. simpl. lia.
Qed.

Section ParseShape.

Context {HandlerT : Type}.
Implicit Types (r route : Route HandlerT).

(** Past the first variable the loop leaves the entry prefix alone and only
    appends to the expression. *)
Lemma Parse_vars_later pathPattern locations :
  forall varIndex r resultPattern plainStart r' resultPattern' plainStart',
  Parse_vars pathPattern locations varIndex r resultPattern plainStart
  = (r', resultPattern', plainStart', None) ->
  (0 < plainStart)%Z ->
  (forall l, l ∈ locations -> (0 < at_ l 1)%Z) ->
  EntryPrefix r' = EntryPrefix r
  /\ exists ext, resultPattern' = resultPattern ++ ext.
Proof.
  induction locations as [|l locations IH];
    intros varIndex r resultPattern plainStart r' resultPattern' plainStart';
    simpl.
  - intros [= <- <- <-] _ _. split; [done|]. exists []. by rewrite app_nil_r.
  - intros Hp Hpos Hlocs.
    assert ((plainStart =? 0)%Z = false) as Hz by lia.
    rewrite Hz in Hp.
    assert (0 < at_ l 1)%Z as Hend by (apply Hlocs; left).
    assert (forall l', l' ∈ locations -> (0 < at_ l' 1)%Z) as Hlocs'
      by (intros l' Hl'; apply Hlocs; by right).
    repeat case_match; simplify_eq.
    all: match goal with
         | Hrec : Parse_vars _ _ _ _ _ _ = _ |- _ =>
             apply IH in Hrec as [Hep [ext ->]]; [|done..]
         end.
    all: split; [done|].
    all: rewrite <- ?app_assoc; by eexists.
Qed.

(** The loop, entered at offset 0 with an empty entry prefix, leaves the
    quoted entry prefix and an opening parenthesis at the head of what it
    appends. *)
Lemma Parse_vars_first pathPattern locations r resultPattern r'
  resultPattern' plainStart' :
  Parse_vars pathPattern locations 0 r resultPattern 0
  = (r', resultPattern', plainStart', None) ->
  locations <> [] ->
  (forall l, l ∈ locations -> (0 < at_ l 1)%Z) ->
  EntryPrefix r = [] ->
  exists ext,
    resultPattern'
    = resultPattern ++ QuoteMeta (EntryPrefix r') ++ ch "(" :: ext.
Proof.
  destruct locations as [|l locations]; [done|]. simpl.
  intros Hp _ Hlocs Hep.
  assert (0 < at_ l 1)%Z as Hend by (apply Hlocs; left).
  assert (forall l', l' ∈ locations -> (0 < at_ l' 1)%Z) as Hlocs'
    by (intros l' Hl'; apply Hlocs; by right).
  repeat case_match; simplify_eq.
  all: match goal with
       | Hrec : Parse_vars _ _ _ _ _ _ = _ |- _ =>
           apply Parse_vars_later in Hrec as [Hep' [ext ->]]; [|done..]
       end.
  all: rewrite Hep'; simpl; try rewrite Hep; simpl.
  all: rewrite <- ?app_assoc; simpl; by eexists.
Qed.

(** The pattern of a compiled route with variables is the compilation of
    "^", its quoted entry prefix, and what follows from the parenthesis of
    the first variable on. *)
Lemma Route_Parse_pattern ruleText r0 route rx :
  Route_Parse r0 ruleText = (route, None) ->
  Pattern route = Some rx ->
  exists rest,
    regexp_Compile (ch "^" :: QuoteMeta (EntryPrefix route) ++ ch "(" :: rest)
    = inr rx.
Proof.
  unfold Route_Parse. intros Hp Hpat.
  repeat case_match; simplify_eq; simpl in Hpat; simplify_eq.
  all: match goal with
       | Hv : Parse_vars ?pp ?locs _ _ _ _ = _,
         Hl : (length ?locs =? 0) = false |- _ =>
           apply Parse_vars_first in Hv as [ext ->];
           [ | by destruct locs | by apply reMatchVars_end | done ]
       end.
  all: simpl.
  all: match goal with
       | Hc : regexp_Compile _ = inr ?re |- _ =>
           rewrite <- Hc; simpl; rewrite <- ?app_assoc; simpl;
           rewrite <- ?app_assoc; simpl; by eexists
       end.
Qed.

End ParseShape.

(** ** The entry prefix as a shortcut *)

Section Shortcut.

Context {HandlerT : Type}.
Implicit Types (route : Route HandlerT) (r : Router HandlerT).

(** A compiled pattern that is not a top-level alternation does not match a
    path that lacks the entry prefix. *)
Lemma no_prefix_no_submatch route rx path :
  compiled route -> Pattern route = Some rx ->
  top_alt (re_tree rx) = false ->
  EntryPrefix route <> [] ->
  HasPrefix path (EntryPrefix route) = false ->
  FindStringSubmatch rx path = [].
Proof.
  intros (ruleText & route0 & handler & Hparse & ->) Hpat Htop Hne Hpre.
  simpl in *.
  destruct (Route_Parse_pattern _ _ _ _ Hparse Hpat) as [rest Hc].
  destruct (compile_shape _ _ _ Hc Htop) as (more & Hmore & Htree).
  destruct (FindStringSubmatch rx path) as [|v vs] eqn:Hf; [done|].
  assert (HasPrefix path (EntryPrefix route0) = true); [|congruence].
  eapply FindStringSubmatch_anchored; [done..|]. by rewrite Hf.
Qed.

Lemma shortcut_safe_intro route rx :
  Pattern route = Some rx -> top_alt (re_tree rx) = false ->
  compiled route -> shortcut_safe route.
Proof. unfold shortcut_safe. by intros -> ? ?. Qed.

Lemma match_route_naive_eq i route conditions path :
  shortcut_safe route ->
  match_route i route conditions path
  = match_route_naive i route conditions path.
Proof.
  unfold shortcut_safe, match_route, match_route_naive. intros Hsafe.
  destruct (cond_skip _ _); [done|].
  destruct (Nat.ltb 0 (length (EntryPrefix route))) eqn:Hlen; simpl; [|done].
  destruct (HasPrefix path (EntryPrefix route)) eqn:Hpre; simpl; [done|].
  destruct (Pattern route) as [rx|] eqn:Hpat.
  - destruct Hsafe as [Htop Hc].
    rewrite (no_prefix_no_submatch route rx path); [done..| |done].
    intros Hnil. by rewrite Hnil in Hlen.
  - rewrite Hsafe. simpl.
    destruct (str_eqb path (EntryPrefix route)) eqn:Heq; [|done].
    apply str_eqb_eq in Heq. by rewrite Heq, HasPrefix_refl in Hpre.
Qed.

Lemma Match_scan_naive_eq routes : forall i conditions path,
  (forall route, route ∈ routes -> shortcut_safe route) ->
  Match_scan i routes conditions path
  = Match_scan_naive i routes conditions path.
Proof.
  induction routes as [|route routes IH]; intros i conditions path Hsafe;
    simpl; [done|].
  rewrite <- match_route_naive_eq by (apply Hsafe; left).
  destruct (match_route i route conditions path); [done|].
  apply IH. intros route' Hin. apply Hsafe. by right.
Qed.

End Shortcut.




(** ** Variables *)

Section Variables.

Context {HandlerT : Type}.
Implicit Types (route : Route HandlerT) (r : Router HandlerT).

(** The loop body on a route with a compiled pattern: the route matches
    when the pattern yields one submatch more than the [Vars] map has
    entries. *)
Lemma match_route_variable i route rx conditions path :
  Pattern route = Some rx ->
  cond_skip (Conditions route) conditions = false ->
  HasPrefix path (EntryPrefix route) = true ->
  is_Some (match_route i route conditions path)
  <-> length (FindStringSubmatch rx path) = 1 + size (Vars route).
Proof.
  intros Hpat Hcond Hpre. unfold match_route.
  rewrite Hcond, Hpat, Hpre, andb_false_r.
  destruct (Nat.eqb _ _) eqn:Heq.
  - apply Nat.eqb_eq in Heq. split; [done|]. by eexists.
  - apply Nat.eqb_neq in Heq. split; [by intros [? ?]|done].
Qed.

End Variables.

(** C1: the rule "/a/{_}" compiles to "^/a/([^/]+)$", which accepts "/a/b"
    with 2 submatches, one more than its one declared variable; the
    variable is anonymous and absent from [Vars], [Match] compares the 2
    submatches with 1 + 0 and returns no match. *)
Theorem C1_anonymous_variable_never_matches :
  snd (Router_Add (empty_router "") (lit "/a/{_}") 1) = (Some 0, None)
  /\ (re_expr <$> (Routes anon_router !! 0 ≫= Pattern))
     = Some (lit "^/a/([^/]+)$")
  /\ (flip FindStringSubmatch (lit "/a/b")
        <$> (Routes anon_router !! 0 ≫= Pattern))
     = Some [lit "/a/b"; lit "b"]
  /\ (size <$> (Vars <$> Routes anon_router !! 0)) = Some 0
  /\ Router_Match anon_router 0%N (lit "/a/b") = (None, None)
  /\ Router_Match_naive anon_router 0%N (lit "/a/b") = (None, None).
Proof. repeat split; vm_compute; reflexivity. Qed.

(** ** Plain custom patterns inside the assembled expression *)

Lemma lex_as_run st s :
  lex st s
  = match lex_run st s with
    | inl e => inl e
    | inr (ts, st') =>
        match lex_finish st' with
        | inl e => inl e
        | inr f => inr (ts ++ f)
        end
    end.
Proof.
  revert st. induction s as [|c s IH]; intros st; simpl.
  - by destruct (lex_finish st).
  - destruct (lex_step st c) as [e|[toks st']]; [done|]. rewrite IH.
    destruct (lex_run st' s) as [e|[rest st'']]; [done|].
    destruct (lex_finish st''); [done|]. by rewrite app_assoc.
Qed.

Lemma lex_run_app st s1 s2 t1 st1 :
  lex_run st s1 = inr (t1, st1) ->
  lex st (s1 ++ s2)
  = match lex st1 s2 with
    | inl e => inl e
    | inr t2 => inr (t1 ++ t2)
    end.
Proof.
  revert st t1. induction s1 as [|c s1 IH]; intros st t1; simpl.
  - intros [= <- <-]. by destruct (lex st s2).
  - destruct (lex_step st c) as [e|[toks st']]; [done|].
    destruct (lex_run st' s1) as [e|[rest st'']] eqn:Hrun; [done|].
    intros [= <- <-]. rewrite (IH _ _ Hrun).
    destruct (lex st'' s2); [done|]. by rewrite app_assoc.
Qed.

Lemma parse_ncap_mono ts : forall st st',
  parse_tokens st ts = inr st' ->
  p_ncap st <= p_ncap st' /\ (TLParen ∈ ts -> p_ncap st < p_ncap st').
Proof.
  induction ts as [|t ts IH]; intros st st'; simpl.
  - intros [= <-]. split; [lia|]. by intros ?%elem_of_nil.
  - destruct (parse_step st t) as [e|st1] eqn:Hstep; [done|].
    intros Hrest. apply IH in Hrest as [Hle Hlt].
    assert (p_ncap st <= p_ncap st1
            /\ (t = TLParen -> p_ncap st < p_ncap st1)) as [Hle1 Hlt1].
    { destruct t; simpl in Hstep; unfold repeat_op in Hstep;
        repeat case_match; simplify_eq; simpl; split; (lia || done). }
    split; [lia|]. intros [Heq|Hin]%elem_of_cons.
    + specialize (Hlt1 (eq_sym Heq)). lia.
    + specialize (Hlt Hin). lia.
Qed.

Lemma parse_step_lift below n st t st' :
  t <> TLParen -> parse_step st t = inr st' ->
  parse_step (lift below n st) t = inr (lift below n st').
Proof.
  intros Ht Hstep. destruct st as [stack alts seq ncap lastq].
  destruct t; try done; simpl in *; unfold repeat_op, lift in *; simpl in *;
    repeat case_match; simplify_eq; simpl in *; simplify_eq; done.
Qed.

Lemma parse_tokens_lift below n ts : forall st st',
  TLParen ∉ ts -> parse_tokens st ts = inr st' ->
  parse_tokens (lift below n st) ts = inr (lift below n st').
Proof.
  induction ts as [|t ts IH]; intros st st' Hno; simpl.
  - by intros [= <-].
  - destruct (parse_step st t) as [e|st1] eqn:Hstep; [done|].
    apply not_elem_of_cons in Hno as [Ht Hno].
    rewrite (parse_step_lift below n st t st1) by done. by apply IH.
Qed.

Lemma mkcat_cap_free rs :
  Forall (fun r => cap_free r = true) rs -> cap_free (mkcat rs) = true.
Proof.
  induction 1 as [|r rs Hr Hrs IH]; [done|].
  destruct rs; [done|]. rewrite mkcat_cons by done. cbn [cap_free].
  by rewrite Hr, IH.
Qed.

Lemma mkalt_cap_free rs :
  Forall (fun r => cap_free r = true) rs -> cap_free (mkalt rs) = true.
Proof.
  induction 1 as [|r rs Hr Hrs IH]; [done|].
  destruct rs; [done|]. rewrite mkalt_cons by done. cbn [cap_free].
  by rewrite Hr, IH.
Qed.

Lemma close_group_cap_free alts seq :
  Forall (fun r => cap_free r = true) alts ->
  Forall (fun r => cap_free r = true) seq ->
  cap_free (close_group alts seq) = true.
Proof.
  intros Ha Hs. unfold close_group. apply mkalt_cap_free.
  apply Forall_rev. constructor; [|done].
  apply mkcat_cap_free. by apply Forall_rev.
Qed.

Lemma parse_step_cap_free st t st' :
  t <> TLParen -> state_cap_free st -> parse_step st t = inr st' ->
  state_cap_free st'.
Proof.
  intros Ht (Ha & Hs & Hf) Hstep. destruct st as [stack alts seq ncap lastq].
  unfold state_cap_free. simpl in *.
  destruct t; try done; simpl in Hstep;
    unfold repeat_op, push_piece, open_group in Hstep; simpl in Hstep;
    repeat case_match; simplify_eq; simpl.
  all: repeat match goal with
         | Hc : Forall _ (_ :: _) |- _ => apply Forall_cons in Hc as [? ?]
         end.
  all: repeat split; repeat constructor; simpl; try done.
  all: try (apply mkcat_cap_free; by apply Forall_rev).
  all: try (by apply close_group_cap_free).
  all: try naive_solver.
  all: by rewrite ?andb_true_r; repeat match goal with
                                | Hc : cap_free _ = true |- _ => rewrite Hc
                                end.
Qed.

Lemma parse_tokens_cap_free ts : forall st st',
  TLParen ∉ ts -> state_cap_free st -> parse_tokens st ts = inr st' ->
  state_cap_free st'.
Proof.
  induction ts as [|t ts IH]; intros st st' Hno Hst; simpl.
  - by intros [= <-].
  - destruct (parse_step st t) as [e|st1] eqn:Hstep; [done|].
    apply not_elem_of_cons in Hno as [Ht Hno].
    apply IH; [done|]. by eapply parse_step_cap_free.
Qed.

(** What a plain pattern is made of: its tokens, read from and back to the
    normal state, none of which opens a capture group, and the state they
    leave in the parser. *)
Lemma plain_pattern_parts pat :
  plain_pattern pat ->
  exists tp stp,
    lex_run LNormal pat = inr (tp, LNormal)
    /\ (TLParen ∉ tp)
    /\ parse_tokens pstate0 tp = inr stp
    /\ p_stack stp = [] /\ p_ncap stp = 0
    /\ pattern_tree pat = close_group (p_alts stp) (p_seq stp)
    /\ cap_free (pattern_tree pat) = true.
Proof.
  intros (rx & Hc & Hn). unfold pattern_tree. rewrite Hc.
  unfold regexp_Compile in Hc. rewrite lex_as_run in Hc.
  destruct (lex_run LNormal pat) as [e|[tp st']] eqn:Hrun; [done|].
  destruct (lex_finish st') as [e|f] eqn:Hfin; [done|].
  destruct (parse_tokens pstate0 (tp ++ f)) as [e|stp] eqn:Hparse; [done|].
  destruct (p_stack stp) eqn:Hstack; [|done].
  simplify_eq. simpl in *.
  assert (TLParen ∉ tp ++ f) as Hno.
  { intros Hin. apply parse_ncap_mono in Hparse as [_ Hlt].
    specialize (Hlt Hin). simpl in Hlt. lia. }
  destruct st'; simpl in Hfin; simplify_eq.
  - rewrite app_nil_r in *. exists tp, stp. repeat split; try done.
    apply (parse_tokens_cap_free tp pstate0 stp Hno) in Hparse as (Ha & Hs & _).
    + by apply close_group_cap_free.
    + repeat split; constructor.
  - exfalso. apply Hno. apply elem_of_app. right. left.
Qed.

(** *** What the loop of [Parse] builds *)

Section ParseVars.

Context {HandlerT : Type}.
Implicit Types (r route : Route HandlerT).

Lemma zslice_empty (s : str) a b : (b <= a)%Z -> zslice s a b = [].
Proof.
  intros Hle. unfold zslice, slice.
  replace (Z.to_nat b - Z.to_nat a) with 0 by lia. done.
Qed.

(** The expression grows by the text of each variable, and [plainStart]
    ends at the end of the last one. *)
Lemma Parse_vars_text pathPattern locations :
  forall varIndex r resultPattern plainStart r' resultPattern' plainStart',
  Parse_vars pathPattern locations varIndex r resultPattern plainStart
  = (r', resultPattern', plainStart', None) ->
  resultPattern'
  = resultPattern
    ++ concat (map segment_text (path_segments pathPattern locations plainStart))
  /\ plainStart' = last_end locations plainStart
  /\ IsPrefix r' = IsPrefix r /\ Conditions r' = Conditions r
  /\ Handler r' = Handler r.
Proof.
  induction locations as [|l locations IH];
    intros varIndex r resultPattern plainStart r' resultPattern' plainStart';
    simpl.
  - intros [= <- <- <-]. by rewrite app_nil_r.
  - intros Hp.
    destruct (Z.ltb plainStart (at_ l 0)) eqn:Hlt.
    + repeat case_match; simplify_eq.
      all: match goal with
           | Hrec : Parse_vars _ _ _ _ _ _ = _ |- _ =>
               apply IH in Hrec as (-> & -> & -> & -> & ->)
           end.
      all: unfold segment_text; simpl; rewrite <- ?app_assoc; simpl;
        by rewrite <- ?app_assoc.
    + rewrite (zslice_empty pathPattern plainStart (at_ l 0)) by lia.
      repeat case_match; simplify_eq.
      all: match goal with
           | Hrec : Parse_vars _ _ _ _ _ _ = _ |- _ =>
               apply IH in Hrec as (-> & -> & -> & -> & ->)
           end.
      all: unfold segment_text; simpl; rewrite <- ?app_assoc; simpl;
        by rewrite <- ?app_assoc.
Qed.

(** The [Vars] map after the loop: what it held, and every named variable
    at the index of its declaration. *)
Lemma Parse_vars_Vars pathPattern locations :
  forall varIndex r resultPattern plainStart r' resultPattern' plainStart',
  Parse_vars pathPattern locations varIndex r resultPattern plainStart
  = (r', resultPattern', plainStart', None) ->
  forall name j,
    Vars r' !! name = Some j
    <-> Vars r !! name = Some j
        \/ (name <> lit "_"
            /\ exists k,
                 (seg_name <$> path_segments pathPattern locations plainStart)
                   !! k = Some name
                 /\ j = varIndex + k).
Proof.
  induction locations as [|l locations IH];
    intros varIndex r resultPattern plainStart r' resultPattern' plainStart';
    simpl.
  - intros [= <- <- <-] name j. split; [by left|].
    intros [?|(_ & k & Hk & _)]; [done|]. by rewrite lookup_nil in Hk.
  - intros Hp name j.
    remember (zslice pathPattern (at_ l 2) (at_ l 3)) as name0 eqn:Hn0.
    destruct (str_eqb name0 (lit "_")) eqn:Hanon; simpl in Hp.
    + apply str_eqb_eq in Hanon.
      repeat case_match; simplify_eq.
      all: match goal with
           | Hrec : Parse_vars _ _ _ _ _ _ = _ |- _ =>
               rewrite (IH _ _ _ _ _ _ _ Hrec name j)
           end; simpl.
      all: split; (intros [?|(Hne & k & Hk & ->)]; [by left|right]);
        (split; [done|]).
      all: try (exists (S k); split; [done|lia]).
      all: destruct k as [|k]; simpl in Hk;
        [ simplify_eq; congruence | exists k; split; [done|lia] ].
    + assert (name0 <> lit "_") as Hne0.
      { intros Heq. by rewrite Heq, str_eqb_refl in Hanon. }
      clear Hn0.
      repeat case_match; simplify_eq.
      all: match goal with
           | Hrec : Parse_vars _ _ _ _ _ _ = _ |- _ =>
               rewrite (IH _ _ _ _ _ _ _ Hrec name j)
           end; simpl in *.
      all: rewrite lookup_insert.
      all: split.
      all: intros [Hl|(Hne & k & Hk & ->)].
      all: try (case_decide as Hd;
                [ simplify_eq; right; split; [done|]; exists 0;
                  split; [done|lia]
                | by left ]).
      all: try (right; split; [done|]; exists (S k); split; [done|lia]).
      all: try (left; case_decide as Hd; [subst name; congruence|done]).
      all: destruct k as [|k]; simpl in Hk;
        [ simplify_eq; left; rewrite decide_True by done; f_equal; lia
        | right; split; [done|]; exists k; split; [done|lia] ].
Qed.

(** The [Vars] map grows by one entry for every named variable. *)
Lemma Parse_vars_size pathPattern locations :
  forall varIndex r resultPattern plainStart r' resultPattern' plainStart',
  Parse_vars pathPattern locations varIndex r resultPattern plainStart
  = (r', resultPattern', plainStart', None) ->
  size (Vars r')
  = size (Vars r)
    + length (filter (fun name => name <> lit "_")
                (seg_name <$> path_segments pathPattern locations plainStart)).
Proof.
  induction locations as [|l locations IH];
    intros varIndex r resultPattern plainStart r' resultPattern' plainStart';
    simpl.
  - intros [= <- <- <-]. simpl. lia.
  - intros Hp.
    remember (zslice pathPattern (at_ l 2) (at_ l 3)) as name0 eqn:Hn0.
    destruct (str_eqb name0 (lit "_")) eqn:Hanon; simpl in Hp.
    + apply str_eqb_eq in Hanon.
      rewrite filter_cons_False by (by intros Hne).
      repeat case_match; simplify_eq.
      all: match goal with
           | Hrec : Parse_vars _ _ _ _ _ _ = _ |- _ =>
               by rewrite (IH _ _ _ _ _ _ _ Hrec)
           end.
    + assert (name0 <> lit "_") as Hne0.
      { intros Heq. by rewrite Heq, str_eqb_refl in Hanon. }
      rewrite filter_cons_True by done. clear Hn0.
      repeat case_match; simplify_eq.
      all: match goal with
           | Hrec : Parse_vars _ _ _ _ _ _ = _ |- _ =>
               rewrite (IH _ _ _ _ _ _ _ Hrec)
           end; simpl in *.
      all: rewrite map_size_insert_None by done.
      all: rewrite Nat.add_succ_r; reflexivity.
Qed.

End ParseVars.

(** *** The expression assembled from plain patterns *)

Lemma lex_open_paren s : lex LNormal (ch "(" :: s) = lex LParen s.
Proof.
  change (lex LNormal (ch "(" :: s))
    with (match lex LParen s with
          | inl e => inl e
          | inr rest => inr ([] ++ rest)
          end).
  by destruct (lex LParen s).
Qed.

Lemma lex_close_paren s :
  lex LNormal (ch ")" :: s)
  = match lex LNormal s with
    | inl e => inl e
    | inr rest => inr (TRParen :: rest)
    end.
Proof. reflexivity. Qed.

(** A plain pattern between parentheses reads as a group around its own
    tokens. *)
Lemma lex_group pat rest :
  plain_pattern pat -> pat <> [] ->
  lex LNormal (ch "(" :: pat ++ ch ")" :: rest)
  = match lex LNormal rest with
    | inl e => inl e
    | inr ts => inr (TLParen :: pattern_tokens pat ++ TRParen :: ts)
    end.
Proof.
  intros Hplain Hne.
  destruct (plain_pattern_parts pat Hplain)
    as (tp & stp & Hrun & Hno & Hparse & _).
  unfold pattern_tokens. rewrite Hrun.
  destruct pat as [|c pat]; [done|]. clear Hne.
  simpl in Hrun.
  destruct (lex_normal c) as [e|[tc st1]] eqn:Hc; [done|].
  destruct (lex_run st1 pat) as [e|[t' st2]] eqn:Hrun'; [done|].
  simplify_eq.
  assert (byte_eqb c (ch "?") = false) as Hq.
  { destruct (byte_eqb c (ch "?")) eqn:E; [|done].
    apply byte_eqb_eq in E as ->. vm_compute in Hc.
    by simplify_eq. }
  rewrite lex_open_paren. simpl. rewrite Hq, Hc.
  rewrite (lex_run_app st1 pat (ch ")" :: rest) t' LNormal Hrun').
  rewrite lex_close_paren.
  destruct (lex LNormal rest); [done|].
  simpl. by rewrite <- !app_assoc.
Qed.

Lemma lex_segments segs : forall rest ts,
  Forall (fun sg => plain_pattern (seg_pat sg) /\ seg_pat sg <> []) segs ->
  lex LNormal (concat (map segment_text segs) ++ rest) = inr ts ->
  exists ts',
    ts = concat (map segment_tokens segs) ++ ts'
    /\ lex LNormal rest = inr ts'.
Proof.
  induction segs as [|sg segs IH]; intros rest ts Hplain; simpl.
  - intros Hl. by exists ts.
  - apply Forall_cons in Hplain as [[Hp Hne] Hplain].
    replace ((segment_text sg ++ concat (map segment_text segs)) ++ rest)
      with (QuoteMeta (seg_chunk sg)
              ++ ch "(" :: seg_pat sg
              ++ ch ")" :: concat (map segment_text segs) ++ rest).
    2:{ unfold segment_text. rewrite <- !app_assoc. simpl.
        by rewrite <- !app_assoc. }
    intros Hl. apply lex_quoted in Hl as (ts1 & -> & Hl).
    rewrite lex_group in Hl by done.
    destruct (lex LNormal (concat (map segment_text segs) ++ rest))
      as [e|ts2] eqn:Hrest; [done|].
    simplify_eq. apply IH in Hrest as (ts' & -> & Hrest); [|done].
    exists ts'. split; [|done].
    unfold segment_tokens. rewrite <- !app_assoc. simpl.
    by rewrite <- !app_assoc.
Qed.

(** The parser turns the tokens of such a group into one capture group,
    numbered after the groups opened so far, around the tree of the
    pattern. *)
Lemma parse_group st pat :
  plain_pattern pat ->
  parse_tokens st (TLParen :: pattern_tokens pat ++ [TRParen])
  = inr {| p_stack := p_stack st; p_alts := p_alts st;
           p_seq := RCap (S (p_ncap st)) (pattern_tree pat) :: p_seq st;
           p_ncap := S (p_ncap st); p_lastq := false |}.
Proof.
  intros Hplain.
  destruct (plain_pattern_parts pat Hplain)
    as (tp & stp & Hrun & Hno & Hparse & Hstack & Hncap & Htree & _).
  unfold pattern_tokens. rewrite Hrun. simpl. rewrite parse_tokens_app.
  set (f := {| f_cap := Some (S (p_ncap st)); f_alts := p_alts st;
               f_seq := p_seq st |}).
  change (open_group st (Some (S (p_ncap st))) (S (p_ncap st)))
    with (lift (f :: p_stack st) (S (p_ncap st)) pstate0).
  rewrite (parse_tokens_lift _ _ tp pstate0 stp Hno Hparse).
  unfold lift. simpl. rewrite Hstack, Hncap, Htree. done.
Qed.

Lemma parse_segment st sg :
  plain_pattern (seg_pat sg) ->
  parse_tokens st (segment_tokens sg)
  = inr {| p_stack := p_stack st; p_alts := p_alts st;
           p_seq := rev (segment_items (S (p_ncap st)) sg) ++ p_seq st;
           p_ncap := S (p_ncap st); p_lastq := false |}.
Proof.
  intros Hplain. unfold segment_tokens, segment_items.
  rewrite parse_tokens_app.
  destruct (parse_lits st (seg_chunk sg)) as [q ->].
  rewrite parse_group by done. simpl.
  rewrite rev_app_distr. simpl. done.
Qed.

Lemma parse_segments segs : forall st,
  Forall (fun sg => plain_pattern (seg_pat sg) /\ seg_pat sg <> []) segs ->
  exists q,
    parse_tokens st (concat (map segment_tokens segs))
    = inr {| p_stack := p_stack st; p_alts := p_alts st;
             p_seq := rev (segments_items (p_ncap st) segs) ++ p_seq st;
             p_ncap := p_ncap st + length segs; p_lastq := q |}.
Proof.
  induction segs as [|sg segs IH]; intros st Hplain; simpl.
  - exists (p_lastq st). rewrite Nat.add_0_r. by destruct st.
  - apply Forall_cons in Hplain as [[Hp Hne] Hplain].
    rewrite parse_tokens_app, parse_segment by done.
    destruct (IH {| p_stack := p_stack st; p_alts := p_alts st;
                    p_seq := rev (segment_items (S (p_ncap st)) sg)
                             ++ p_seq st;
                    p_ncap := S (p_ncap st); p_lastq := false |} Hplain)
      as [q ->].
    exists q. simpl. rewrite rev_app_distr, <- app_assoc.
    do 2 f_equal. lia.
Qed.

(** The expression [Parse] assembles from plain patterns compiles to the
    start anchor, then for each variable the characters of its chunk and its
    capture group, then the characters of the tail and, for an exact route,
    the end anchor; it has one group per variable. *)
Lemma compile_assembled segs tail (dollar : bool) rx :
  Forall (fun sg => plain_pattern (seg_pat sg) /\ seg_pat sg <> []) segs ->
  regexp_Compile (ch "^" :: concat (map segment_text segs)
                    ++ QuoteMeta tail ++ (if dollar then [ch "$"] else []))
  = inr rx ->
  re_tree rx
  = mkcat (RBol :: segments_items 0 segs ++ map RLit tail
             ++ (if dollar then [REol] else []))
  /\ NumSubexp rx = length segs.
Proof.
  intros Hplain. set (target := mkcat _). unfold regexp_Compile.
  destruct (lex LNormal _) as [e|ts] eqn:Hlex; [done|].
  apply lex_cons in Hlex as (toks & st1 & rest1 & Hstep & Hl & ->).
  assert (toks = [TBol] /\ st1 = LNormal) as [-> ->].
  { vm_compute in Hstep. by simplify_eq. }
  apply lex_segments in Hl as (ts1 & -> & Hl); [|done].
  apply lex_quoted in Hl as (ts2 & -> & Hl).
  assert (ts2 = if dollar then [TEol] else []) as ->.
  { destruct dollar; vm_compute in Hl; by simplify_eq. }
  rewrite (parse_tokens_app pstate0 [TBol]). cbn [parse_tokens parse_step].
  rewrite parse_tokens_app.
  destruct (parse_segments segs (push_piece pstate0 RBol) Hplain) as [q ->].
  rewrite parse_tokens_app.
  match goal with
  | |- context [parse_tokens ?st (map TLit tail)] =>
      destruct (parse_lits st tail) as [q' ->]
  end.
  assert (rev (rev (map RLit tail) ++ rev (segments_items 0 segs) ++ [RBol])
          = RBol :: segments_items 0 segs ++ map RLit tail) as Hrev.
  { rewrite !rev_app_distr, !rev_involutive. simpl.
    by rewrite <- ?app_assoc. }
  destruct dollar; simpl; intros [= <-]; simpl; (split; [|lia]).
  - unfold close_group. simpl. rewrite Hrev. subst target.
    by rewrite <- app_comm_cons, <- app_assoc.
  - unfold close_group. simpl. rewrite Hrev. subst target.
    by rewrite app_nil_r.
Qed.

(** *** Matching an assembled expression *)

Lemma rmatch_mkcat_cons r rs pos s caps k :
  rmatch (mkcat (r :: rs)) pos s caps k
  = rmatch r pos s caps (fun pos' s' caps' => rmatch (mkcat rs) pos' s' caps' k).
Proof. by destruct rs. Qed.

(** An expression without capture group hands the groups on unchanged. *)
Lemma rmatch_cap_free r : forall pos s caps k res,
  cap_free r = true ->
  rmatch r pos s caps k = Some res ->
  exists pos',
    pos <= pos' /\ pos' - pos <= length s
    /\ k pos' (drop (pos' - pos) s) caps = Some res.
Proof.
  induction r as [|c|cs| | |a IHa b IHb|a IHa b IHb|a IHa|i a IHa];
    intros pos s caps k res Hfree; simpl in *.
  - intros Hk. exists pos. rewrite Nat.sub_diag. stay_put.
  - destruct s as [|x s']; [done|]. destruct (byte_eqb x c); [|done].
    intros Hk. exists (S pos). replace (S pos - pos) with 1 by lia. stay_put.
  - destruct s as [|x s']; [done|]. destruct (cset_mem x cs); [|done].
    intros Hk. exists (S pos). replace (S pos - pos) with 1 by lia. stay_put.
  - destruct (Nat.eqb pos 0); [|done].
    intros Hk. exists pos. rewrite Nat.sub_diag. stay_put.
  - destruct s; [|done].
    intros Hk. exists pos. rewrite Nat.sub_diag. stay_put.
  - apply andb_true_iff in Hfree as [Ha Hb].
    intros Hm. apply IHa in Hm as (p1 & Hp1 & Hl1 & Hm); [|done].
    apply IHb in Hm as (p2 & Hp2 & Hl2 & Hm); [|done].
    exists p2. rewrite length_drop in Hl2. rewrite drop_drop in Hm.
    replace (p1 - pos + (p2 - p1)) with (p2 - pos) in Hm by lia.
    stay_put.
  - apply andb_true_iff in Hfree as [Ha Hb].
    destruct (rmatch a pos s caps k) eqn:Hma.
    + intros [= <-]. by apply IHa in Hma.
    + by apply IHb.
  - generalize (length s) at 1. intros n. revert pos s caps.
    induction n as [|n IHn]; intros pos s caps.
    + intros Hk. exists pos. rewrite Nat.sub_diag. stay_put.
    + match goal with
      | |- context [rmatch a pos s caps ?k'] =>
          destruct (rmatch a pos s caps k') eqn:Hma
      end.
      * intros [= <-].
        apply IHa in Hma as (p1 & Hp1 & Hl1 & Hm); [|done].
        destruct (Nat.ltb _ _); [|done].
        apply IHn in Hm as (p2 & Hp2 & Hl2 & Hm).
        exists p2. rewrite length_drop in Hl2. rewrite drop_drop in Hm.
        replace (p1 - pos + (p2 - p1)) with (p2 - pos) in Hm by lia.
        stay_put.
      * intros Hk. exists pos. rewrite Nat.sub_diag. stay_put.
  - done.
Qed.

(** The characters of a chunk are read off the text one by one. *)
Lemma rmatch_chunk chunk items : forall pos s caps k res,
  rmatch (mkcat (map RLit chunk ++ items)) pos s caps k = Some res ->
  exists s',
    s = chunk ++ s'
    /\ rmatch (mkcat items) (pos + length chunk) s' caps k = Some res.
Proof.
  induction chunk as [|c chunk IH]; intros pos s caps k res; simpl map.
  - intros Hm. exists s. by rewrite Nat.add_0_r.
  - rewrite <- app_comm_cons, rmatch_mkcat_cons. cbn [rmatch].
    destruct s as [|x s]; [done|].
    destruct (byte_eqb x c) eqn:E; [|done]. apply byte_eqb_eq in E as ->.
    intros Hm. apply IH in Hm as (s' & -> & Hm). exists s'. split; [done|].
    simpl. by replace (pos + S (length chunk)) with (S pos + length chunk)
      by lia.
Qed.

(** Matching the pieces of the variables: the text read is the chunks with
    one value after each, and the group of the i-th variable holds the
    offsets of the i-th value. *)
Lemma rmatch_segments segs : forall g items pos s caps k res,
  Forall (fun sg => cap_free (pattern_tree (seg_pat sg)) = true) segs ->
  g + length segs <= length caps ->
  rmatch (mkcat (segments_items g segs ++ items)) pos s caps k = Some res ->
  exists vals s' caps',
    length vals = length segs
    /\ s = weave segs vals ++ s'
    /\ length caps' = length caps
    /\ (forall j, j < g -> caps' !! j = caps !! j)
    /\ (forall i v, vals !! i = Some v ->
          exists a, pos <= a
            /\ caps' !! (g + i) = Some (Some (a, a + length v))
            /\ slice s (a - pos) (a - pos + length v) = v)
    /\ rmatch (mkcat items) (pos + length (weave segs vals)) s' caps' k
       = Some res.
Proof.
  induction segs as [|sg segs IH]; intros g items pos s caps k res Hfree Hlen.
  - simpl. intros Hm. exists [], s, caps. rewrite Nat.add_0_r.
    repeat split; done.
  - apply Forall_cons in Hfree as [Hf Hfree]. simpl in Hlen.
    cbn [segments_items]. unfold segment_items.
    rewrite <- !app_assoc. intros Hm.
    apply rmatch_chunk in Hm as (s1 & -> & Hm).
    rewrite <- app_comm_cons, rmatch_mkcat_cons in Hm. cbn [rmatch pred] in Hm.
    apply rmatch_cap_free in Hm as (p2 & Hp2 & Hl2 & Hm); [|done].
    set (p1 := pos + length (seg_chunk sg)) in *. cbn [app] in Hm.
    assert (S g + length segs <= length (<[g:=Some (p1, p2)]> caps)) as Hlen'
      by (rewrite length_insert; lia).
    destruct (IH _ _ _ _ _ _ _ Hfree Hlen' Hm)
      as (vals & s' & caps' & Hvals & Hs & Hcl & Hold & Hnew & Hm').
    set (v := take (p2 - p1) s1).
    assert (length v = p2 - p1) as Hv by (unfold v; rewrite length_take; lia).
    assert (s1 = v ++ drop (p2 - p1) s1) as Hs1
      by (unfold v; by rewrite take_drop).
    exists (v :: vals), s', caps'.
    assert (pos + length (weave (sg :: segs) (v :: vals))
            = p2 + length (weave segs vals)) as Hpos.
    { simpl. rewrite !length_app. lia. }
    rewrite Hpos. rewrite length_insert in Hcl.
    repeat split; try done.
    + simpl. by rewrite Hvals.
    + simpl. rewrite <- !app_assoc. f_equal. rewrite Hs1 at 1.
      by rewrite <- Hs.
    + intros j Hj. rewrite Hold by lia. apply list_lookup_insert_ne. lia.
    + intros [|i] w Hw; simpl in Hw.
      * injection Hw as Hw. rewrite <- Hw. clear w Hw.
        exists p1. split; [unfold p1; lia|].
        rewrite Nat.add_0_r, Hold by lia.
        rewrite list_lookup_insert_eq by lia. split; [by rewrite Hv; repeat f_equal; lia|].
        unfold slice, p1.
        replace (pos + length (seg_chunk sg) - pos) with (length (seg_chunk sg))
          by lia.
        rewrite drop_app_length.
        replace (length (seg_chunk sg) + length v - length (seg_chunk sg))
          with (length v) by lia.
        by rewrite Hv.
      * apply Hnew in Hw as (a & Ha & Hc & Hsl). exists a.
        split; [unfold p1 in *; lia|].
        split; [by replace (g + S i) with (S g + i) by lia|].
        unfold slice in *.
        replace (a - pos + length w - (a - pos)) with (length w) by lia.
        replace (a - p2 + length w - (a - p2)) with (length w) in Hsl by lia.
        rewrite drop_drop in Hsl.
        replace (a - pos) with (length (seg_chunk sg) + (p2 - p1 + (a - p2)))
          by (unfold p1 in *; lia).
        by rewrite <- drop_drop, drop_app_length.
Qed.

Lemma map_by_lookup {A B} (f : A -> B) (l : list A) : forall (vals : list B),
  length l = length vals ->
  (forall i v, vals !! i = Some v -> exists x, l !! i = Some x /\ f x = v) ->
  map f l = vals.
Proof.
  induction l as [|x l IH]; intros [|v vals] Hlen Hall; simpl in *; try done.
  f_equal.
  - destruct (Hall 0 v eq_refl) as (x' & [= <-] & Hx). done.
  - apply IH; [lia|]. intros i w Hw. apply (Hall (S i) w Hw).
Qed.

(** What [FindStringSubmatch] returns for an assembled expression: the
    values of the variables in order, which with the chunks and the tail
    spell the matched text; an exact route matches the whole path, a
    subtree route a prefix of it. *)
Lemma FindStringSubmatch_assembled rx segs tail (dollar : bool) path whole vs :
  re_tree rx
  = mkcat (RBol :: segments_items 0 segs ++ map RLit tail
             ++ (if dollar then [REol] else [])) ->
  NumSubexp rx = length segs ->
  Forall (fun sg => cap_free (pattern_tree (seg_pat sg)) = true) segs ->
  FindStringSubmatch rx path = whole :: vs ->
  length vs = length segs
  /\ whole = weave segs vs ++ tail
  /\ (if dollar then path = whole else exists extra, path = whole ++ extra).
Proof.
  intros Htree Hn Hfree. unfold FindStringSubmatch.
  destruct (search rx 0 path) as [[[b e] caps]|] eqn:Hs; [|done].
  intros [= <- <-]. apply search_Some in Hs as [_ Hm].
  unfold match_at in Hm. rewrite Htree, rmatch_mkcat_cons in Hm.
  cbn [rmatch] in Hm. destruct (Nat.eqb b 0) eqn:Hb; [|done].
  apply Nat.eqb_eq in Hb as ->. simpl in Hm.
  apply rmatch_segments in Hm
    as (vals & s' & caps' & Hvals & Hs & Hcl & _ & Hnew & Hm);
    [|done|by rewrite length_replicate, Hn].
  apply rmatch_chunk in Hm as (s'' & -> & Hm).
  rewrite length_replicate in Hcl. change (drop 0 path) with path in Hs.
  assert (e = length (weave segs vals ++ tail) /\ caps = caps'
          /\ (if dollar then s'' = [] else True)) as (-> & -> & Hrest).
  { destruct dollar; simpl in Hm.
    - destruct s''; [|done]. simplify_eq. by rewrite length_app.
    - simplify_eq. by rewrite length_app. }
  assert (map (fun c => match c with
                        | Some (x, y) => slice path x y
                        | None => []
                        end) caps' = vals) as Hmap.
  { apply map_by_lookup; [lia|]. intros i v Hv.
    apply Hnew in Hv as (a & _ & Hc & Hsl). simpl in Hc.
    exists (Some (a, a + length v)). split; [done|].
    by rewrite Nat.sub_0_r in Hsl. }
  rewrite Hmap. split; [done|].
  assert (slice path 0 (length (weave segs vals ++ tail))
          = weave segs vals ++ tail) as Hwhole.
  { unfold slice. rewrite Nat.sub_0_r. change (drop 0 path) with path.
    rewrite Hs, app_assoc. by rewrite take_app_length. }
  rewrite Hwhole. split; [done|].
  destruct dollar.
  - subst s''. by rewrite Hs, !app_nil_r.
  - exists s''. by rewrite Hs, app_assoc.
Qed.

Section ParseAssembled.

Context {HandlerT : Type}.
Implicit Types (r route : Route HandlerT).

Lemma QuoteMeta_drop_past (s : str) (n : Z) :
  (if (n <? Z.of_nat (length s))%Z then QuoteMeta (drop (Z.to_nat n) s) else [])
  = QuoteMeta (drop (Z.to_nat n) s).
Proof.
  destruct (Z.ltb_spec n (Z.of_nat (length s))); [done|].
  rewrite drop_ge by lia. done.
Qed.

(** The pattern of a compiled route with variables is the compilation of
    the text assembled from the variables of the rule, and its [Vars] map
    sends every named variable to the index of its declaration. *)
Lemma Route_Parse_assembled ruleText r0 route rx :
  Route_Parse r0 ruleText = (route, None) ->
  Pattern route = Some rx ->
  regexp_Compile
    (ch "^" :: concat (map segment_text (rule_segments ruleText))
       ++ QuoteMeta (rule_tail ruleText)
       ++ (if negb (IsPrefix route) then [ch "$"] else []))
  = inr rx
  /\ (forall name j,
        Vars route !! name = Some j
        <-> name <> lit "_"
            /\ (seg_name <$> rule_segments ruleText) !! j = Some name)
  /\ size (Vars route)
     = length (filter (fun name => name <> lit "_")
                 (seg_name <$> rule_segments ruleText)).
Proof.
  unfold Route_Parse, rule_segments, rule_tail, rule_locations, rule_path.
  intros Hp Hpat.
  destruct (IndexByte (TrimSpace ruleText) (ch "/")) as [i|]; [|done].
  repeat case_match; simplify_eq; simpl in Hpat; simplify_eq.
  all: try congruence.
  all: match goal with
       | Hv : Parse_vars _ _ _ _ _ _ = _ |- _ =>
           pose proof (Parse_vars_Vars _ _ _ _ _ _ _ _ _ Hv) as HV;
           pose proof (Parse_vars_size _ _ _ _ _ _ _ _ _ Hv) as HS;
           apply Parse_vars_text in Hv as (-> & -> & Hpre & _ & _)
       end.
  all: simpl in *.
  all: split;
    [ match goal with
      | Hc : regexp_Compile _ = inr ?re |- _ => rewrite <- Hc
      end
    | split;
      [ intros name j; rewrite HV; simpl; rewrite lookup_empty;
        split;
        [ intros [?|(Hne & k & Hk & ->)]; [done|]; by split
        | intros [Hne Hk]; right; split; [done|]; exists j; by split ]
      | by rewrite HS, map_size_empty ] ].
  all: try congruence.
  all: try (rewrite Hpre in *; simpl in *; congruence).
  all: f_equal; simpl; rewrite <- ?app_assoc; simpl; try rewrite Hpre; simpl.
  all: try rewrite app_nil_r; try done.
  all: repeat match goal with
         | Hlt : (?n <? Z.of_nat (length ?s))%Z = false |- _ =>
             rewrite (drop_ge s (Z.to_nat n)) by lia
         end; simpl; rewrite ?app_nil_r; try done.
Qed.

End ParseAssembled.

Lemma var_pattern_nonempty pathPattern l : var_pattern pathPattern l <> [].
Proof.
  unfold var_pattern. repeat case_match; try done.
  intros Hnil. by rewrite Hnil in *.
Qed.

Lemma path_segments_pat pathPattern locations : forall plainStart,
  Forall (fun sg => seg_pat sg <> [])
         (path_segments pathPattern locations plainStart).
Proof.
  induction locations as [|l locations IH]; intros plainStart; simpl.
  - constructor.
  - constructor; [apply var_pattern_nonempty|apply IH].
Qed.

Lemma filter_keeps_all {A} (P : A -> Prop) `{forall x, Decision (P x)}
  (l : list A) :
  length (filter P l) = length l -> Forall P l.
Proof.
  induction l as [|x l IH]; [constructor|].
  destruct (decide (P x)) as [Hx|Hx].
  - rewrite filter_cons_True by done. simpl. intros Hl.
    constructor; [done|]. apply IH. lia.
  - rewrite filter_cons_False by done. simpl. intros Hl.
    pose proof (length_filter P l). lia.
Qed.

Section Literal.

Context {HandlerT : Type}.
Implicit Types (r route : Route HandlerT).

(** A compiled route without pattern comes from a rule without variable:
    its entry prefix is the whole path pattern. *)
Lemma Route_Parse_literal ruleText r0 route :
  Route_Parse r0 ruleText = (route, None) ->
  Pattern route = None ->
  rule_locations ruleText = []
  /\ EntryPrefix route = rule_path ruleText
  /\ Vars route = ∅.
Proof.
  unfold Route_Parse, rule_locations, rule_path.
  intros Hp Hpat.
  destruct (IndexByte (TrimSpace ruleText) (ch "/")) as [i|]; [|done].
  repeat case_match; simplify_eq; simpl in Hpat; simplify_eq.
  all: try congruence.
  all: repeat split; try done.
  all: match goal with
       | Hl : (length ?l =? 0) = true |- ?l = [] =>
           apply Nat.eqb_eq in Hl; by destruct l
       end.
Qed.

End Literal.

Section Captures.

Context {HandlerT : Type}.
Implicit Types (route : Route HandlerT) (r : Router HandlerT)
  (m : Match HandlerT).

(** A match returned by [Match] is the match of its own route on its own
    path. *)
Lemma Router_Match_Some r conditions path m :
  Router_Match r conditions path = (Some m, None) ->
  match_route (MIndex m) (MRoute m) conditions (Path m) = Some m
  /\ Routes r !! MIndex m = Some (MRoute m).
Proof.
  unfold Router_Match. intros Hm.
  assert (exists p, Match_scan 0 (Routes r) conditions p = Some m)
    as [p Hscan] by (repeat case_match; simplify_eq; by eexists).
  apply Match_scan_Some in Hscan as (k & route & Hk & Hr & _). simpl in Hr.
  destruct (match_route_Some _ _ _ _ _ Hr) as (-> & -> & ->). done.
Qed.

(** The values of a match of a route whose custom patterns are plain: one
    per declared variable, spelling the path together with the literal
    chunks of the rule. *)
Lemma match_route_values ruleText route handler i conditions path m :
  Route_Parse Route_zero ruleText = (route, None) ->
  Forall (fun sg => plain_pattern (seg_pat sg)) (rule_segments ruleText) ->
  match_route i (set_Handler route handler) conditions path = Some m ->
  length (Match_Values m) = length (rule_segments ruleText)
  /\ (if IsPrefix route
      then exists extra,
             path = weave (rule_segments ruleText) (Match_Values m)
                      ++ rule_tail ruleText ++ extra
      else path = weave (rule_segments ruleText) (Match_Values m)
                    ++ rule_tail ruleText)
  /\ size (Vars route) = length (Match_Values m).
Proof.
  intros Hparse Hplain. unfold match_route. simpl.
  destruct (cond_skip _ _); [done|].
  destruct (Nat.ltb 0 (length (EntryPrefix route))
            && negb (HasPrefix path (EntryPrefix route))) eqn:Hpre; [done|].
  destruct (Pattern route) as [rx|] eqn:Hpat.
  - (* variables *)
    destruct (Route_Parse_assembled _ _ _ _ Hparse Hpat) as (Hc & HV & HS).
    assert (Forall (fun sg => plain_pattern (seg_pat sg) /\ seg_pat sg <> [])
                   (rule_segments ruleText)) as Hplain'.
    { apply Forall_and. split; [done|]. apply path_segments_pat. }
    assert (Forall (fun sg => cap_free (pattern_tree (seg_pat sg)) = true)
                   (rule_segments ruleText)) as Hfree.
    { eapply Forall_impl; [exact Hplain|]. intros sg Hsg. simpl.
      by destruct (plain_pattern_parts _ Hsg) as (? & ? & ? & ? & ? & ? & ? & ? & ?). }
    destruct (compile_assembled (rule_segments ruleText) (rule_tail ruleText)
                (negb (IsPrefix route)) rx Hplain')
      as [Htree Hn].
    { rewrite <- Hc. by destruct (IsPrefix route). }
    destruct (FindStringSubmatch rx path) as [|whole vs] eqn:Hf; [done|].
    destruct (Nat.eqb _ _) eqn:Hlen; [|done]. intros [= <-].
    apply Nat.eqb_eq in Hlen. simpl in Hlen.
    destruct (FindStringSubmatch_assembled _ _ _ _ _ _ _ Htree Hn Hfree Hf)
      as (Hvs & Hwhole & Hpath).
    unfold Match_Values. simpl. rewrite drop_0.
    split; [done|]. split; [|lia].
    destruct (IsPrefix route); simpl in Hpath.
    + destruct Hpath as [extra ->]. exists extra.
      by rewrite Hwhole, <- !app_assoc.
    + by rewrite Hpath, Hwhole.
  - (* no variable *)
    destruct (Route_Parse_literal _ _ _ Hparse Hpat) as (Hloc & Hep & Hvars).
    assert (rule_segments ruleText = []) as ->
      by (unfold rule_segments; by rewrite Hloc).
    assert (rule_tail ruleText = EntryPrefix route) as ->
      by (unfold rule_tail; by rewrite Hloc, Hep).
    rewrite Hvars.
    assert (HasPrefix path (EntryPrefix route) = true) as Hp.
    { destruct (EntryPrefix route); [done|].
      simpl in Hpre. by apply negb_false_iff in Hpre. }
    destruct (IsPrefix route); simpl.
    + intros [= <-]. repeat split; try done.
      exists (drop (length (EntryPrefix route)) path). by apply HasPrefix_inv.
    + destruct (str_eqb path (EntryPrefix route)) eqn:Heq; [|done].
      intros [= <-]. repeat split; try done. by apply str_eqb_eq.
Qed.

End Captures.




(** ** Further properties of the table *)

Section Table.

Context {HandlerT : Type}.
Implicit Types (route : Route HandlerT) (r : Router HandlerT)
  (m : Match HandlerT).

Lemma Match_scan_app (routes1 routes2 : list (Route HandlerT)) :
  forall i conditions path,
  Match_scan i (routes1 ++ routes2) conditions path
  = match Match_scan i routes1 conditions path with
    | Some m => Some m
    | None => Match_scan (i + length routes1) routes2 conditions path
    end.
Proof.
  induction routes1 as [|route routes1 IH]; intros i conditions path; simpl.
  - by rewrite Nat.add_0_r.
  - destruct (match_route i route conditions path); [done|].
    rewrite IH. by rewrite Nat.add_succ_r.
Qed.

Lemma Router_Add_parsed r ruleText handler route :
  Route_Parse Route_zero ruleText = (route, None) ->
  Router_Add r ruleText handler
  = ({| BasePath := normalize_BasePath (BasePath r);
        Routes := Routes r ++ [set_Handler route (Some handler)] |},
     (Some (length (Routes r)), None)).
Proof.
  intros Hparse. unfold Router_Add. rewrite Hparse. simpl.
  rewrite length_app. simpl.
  replace (length (Routes r) + 1 - 1) with (length (Routes r) + 0) by lia.
  rewrite insert_app_r. simpl. by rewrite Nat.add_0_r.
Qed.

End Table.

(** Add, success: when the rule compiles, [Add] returns the index of the
    new route, which is the number of routes before the call; the new route
    is the compiled one with the handler set, it is the last of the table,
    and the routes registered before are where they were. *)
Theorem Router_Add_appends {HandlerT : Type} (r : Router HandlerT)
  (ruleText : str) (handler : HandlerT) (route : Route HandlerT)
  (Hparse : Route_Parse Route_zero ruleText = (route, None)) :
  snd (Router_Add r ruleText handler) = (Some (length (Routes r)), None)
  /\ Routes (fst (Router_Add r ruleText handler)) !! length (Routes r)
     = Some (set_Handler route (Some handler))
  /\ length (Routes (fst (Router_Add r ruleText handler)))
     = S (length (Routes r))
  /\ (forall k, k < length (Routes r) ->
        Routes (fst (Router_Add r ruleText handler)) !! k = Routes r !! k)
  /\ BasePath (fst (Router_Add r ruleText handler))
     = normalize_BasePath (BasePath r).
Proof.
  rewrite (Router_Add_parsed _ _ _ _ Hparse). simpl.
  split; [done|]. split.
  { rewrite lookup_app_r by lia. by rewrite Nat.sub_diag. }
  split; [rewrite length_app; simpl; lia|].
  split; [|done]. intros k Hk. by rewrite lookup_app_l.
Qed.

Lemma Router_Add_appends_witness :
  snd (Router_Add scenarioA (lit "/about") 2) = (Some 1, None)
  /\ Routes (fst (Router_Add scenarioA (lit "/about") 2)) !! 0
     = Routes scenarioA !! 0.
Proof.
  assert (Route_Parse Route_zero (lit "/about")
          = (fst (Route_Parse (HandlerT:=nat) Route_zero (lit "/about")), None))
    as Hparse by (vm_compute; reflexivity).
  destruct (Router_Add_appends scenarioA (lit "/about") 2 _ Hparse)
    as (Hret & _ & _ & Hold & _).
  split.
  - rewrite Hret. vm_compute. reflexivity.
  - apply Hold. vm_compute. lia.
Defined.

(** Add then Match: on a table whose base path is normalized, registering
    a rule, whether it compiles or not, does not change the answer for a
    path that already had a match: the routes registered earlier win. *)
Theorem Router_Add_keeps_matches {HandlerT : Type} (r : Router HandlerT)
  (ruleText : str) (handler : HandlerT) (conditions : CondFlags) (path : str)
  (m : Match HandlerT)
  (Hnorm : normalized (BasePath r))
  (Hmatch : Router_Match r conditions path = (Some m, None)) :
  Router_Match (fst (Router_Add r ruleText handler)) conditions path
  = (Some m, None).
Proof.
  destruct (Route_Parse (HandlerT:=HandlerT) Route_zero ruleText)
    as [route [err|]] eqn:Hparse.
  - rewrite (Router_Add_failure r ruleText handler err)
      by (by rewrite Hparse).
    simpl. rewrite normalized_fixed by done. by destruct r.
  - rewrite (Router_Add_parsed _ _ _ _ Hparse). simpl.
    rewrite normalized_fixed by done.
    unfold Router_Match in *. simpl.
    destruct (Nat.ltb 0 (length (BasePath r))).
    + destruct (negb (HasPrefix path (BasePath r))); [done|].
      rewrite Match_scan_app.
      by destruct (Match_scan 0 (Routes r) conditions _); simplify_eq.
    + rewrite Match_scan_app.
      by destruct (Match_scan 0 (Routes r) conditions _); simplify_eq.
Qed.

Lemma Router_Add_keeps_matches_witness :
  normalized (BasePath scenarioA)
  /\ Router_Match (fst (Router_Add scenarioA (lit "/user/{x}/edit") 2)) 0%N
                  (lit "/user/42/edit")
     = (Some user_match, None).
Proof.
  assert (normalized (BasePath scenarioA)) as Hn by (left; reflexivity).
  split; [exact Hn|].
  apply (Router_Add_keeps_matches scenarioA (lit "/user/{x}/edit") 2 0%N
           (lit "/user/42/edit") user_match Hn).
  vm_compute. reflexivity.
Defined.

(** Add then Match: when no route registered so far matches a path inside
    the base path, the answer after a successful [Add] is the answer of the
    new route alone, at the index [Add] returned. *)
Theorem Router_Add_new_route_last {HandlerT : Type} (r : Router HandlerT)
  (ruleText : str) (handler : HandlerT) (route : Route HandlerT)
  (conditions : CondFlags) (path : str)
  (Hnorm : normalized (BasePath r))
  (Hparse : Route_Parse Route_zero ruleText = (route, None))
  (Hnone : Router_Match r conditions path = (None, None)) :
  Router_Match (fst (Router_Add r ruleText handler)) conditions path
  = (match_route (length (Routes r)) (set_Handler route (Some handler))
                 conditions (drop (length (BasePath r)) path), None).
Proof.
  rewrite (Router_Add_parsed _ _ _ _ Hparse). simpl.
  rewrite normalized_fixed by done.
  unfold Router_Match in *. simpl.
  destruct (Nat.ltb 0 (length (BasePath r))) eqn:Hlen.
  - destruct (negb (HasPrefix path (BasePath r))); [done|].
    rewrite Match_scan_app.
    destruct (Match_scan 0 (Routes r) conditions _); simplify_eq.
    simpl. by destruct (match_route _ _ _ _).
  - apply Nat.ltb_ge in Hlen.
    assert (length (BasePath r) = 0) as -> by lia. rewrite drop_0.
    rewrite Match_scan_app.
    destruct (Match_scan 0 (Routes r) conditions _); simplify_eq.
    simpl. by destruct (match_route _ _ _ _).
Qed.

Lemma Router_Add_new_route_last_witness :
  Router_Match scenarioA 0%N (lit "/about") = (None, None)
  /\ (MIndex <$> fst (Router_Match about_router 0%N (lit "/about"))) = Some 1.
Proof.
  assert (Router_Match scenarioA 0%N (lit "/about") = (None, None)) as Hnone
    by (vm_compute; reflexivity).
  split; [exact Hnone|].
  assert (Route_Parse Route_zero (lit "/about")
          = (fst (Route_Parse (HandlerT:=nat) Route_zero (lit "/about")), None))
    as Hparse by (vm_compute; reflexivity).
  unfold about_router, register.
  rewrite (Router_Add_new_route_last scenarioA (lit "/about") 2 _ 0%N
             (lit "/about") (or_introl eq_refl) Hparse Hnone).
  vm_compute. reflexivity.
Defined.

(** Add, base path: whatever the base path, it is normalized after two
    calls of [Add] (one call is not always enough), and further calls leave
    it alone. *)
Theorem normalize_BasePath_twice (basePath : str) :
  normalized (normalize_BasePath (normalize_BasePath basePath))
  /\ normalize_BasePath (normalize_BasePath (normalize_BasePath basePath))
     = normalize_BasePath (normalize_BasePath basePath).
Proof.
  assert (normalized (normalize_BasePath (normalize_BasePath basePath)))
    as Hn.
  { destruct basePath as [|c rest]; [by left|].
    destruct (decide (c = ch "/")) as [->|Hc].
    - assert (normalized (normalize_BasePath (ch "/" :: rest))) as Hn1
        by (by apply normalize_rooted).
      by rewrite (normalized_fixed _ Hn1).
    - assert (normalize_BasePath (c :: rest) = ch "/" :: c :: rest) as ->.
      { unfold normalize_BasePath.
        assert (str_eqb (c :: rest) (lit "/") = false) as ->.
        { destruct (str_eqb (c :: rest) (lit "/")) eqn:Heq; [|done].
          apply str_eqb_eq in Heq. change (lit "/") with [ch "/"] in Heq.
          by simplify_eq. }
        simpl. rewrite bool_decide_false; [done|]. by intros [= ->]. }
      by apply normalize_rooted. }
  split; [done|]. by apply normalized_fixed.
Qed.

Lemma Router_Match_path {HandlerT : Type} (r : Router HandlerT)
  (conditions : CondFlags) (path : str) (m : Match HandlerT)
  (err : option error) :
  Router_Match r conditions path = (Some m, err) ->
  err = None /\ path = BasePath r ++ Path m.
Proof.
  intros Hmatch.
  assert (HasPrefix path (BasePath r) = true) as Hpre.
  { destruct (HasPrefix path (BasePath r)) eqn:Hp; [done|].
    by rewrite Router_Match_outside in Hmatch. }
  rewrite Router_Match_inside in Hmatch by done.
  injection Hmatch as Hscan <-. split; [done|].
  apply Match_scan_Some in Hscan as (k & route & _ & Hr & _).
  destruct (match_route_Some _ _ _ _ _ Hr) as (_ & _ & ->).
  by apply HasPrefix_inv.
Qed.

Lemma match_route_admits {HandlerT : Type} i (route : Route HandlerT)
  conditions path m :
  match_route i route conditions path = Some m ->
  cond_skip (Conditions route) conditions = false
  /\ HasPrefix path (EntryPrefix route) = true.
Proof.
  unfold match_route. intros Hm.
  destruct (cond_skip _ _); [done|]. split; [done|].
  destruct (Nat.ltb 0 (length (EntryPrefix route))
            && negb (HasPrefix path (EntryPrefix route))) eqn:Hpre; [done|].
  destruct (EntryPrefix route); [by destruct path|].
  simpl in Hpre. by apply negb_false_iff in Hpre.
Qed.

(** Match, soundness: a match is returned without an error; the path is the
    base path followed by the path of the match; the route of the match is
    the element of the table at its index; the conditions of the route
    admit the request; the path of the match starts with the entry prefix
    of the route; and the match holds values exactly when the route has a
    compiled pattern, as many values as the route has named variables. *)
Theorem Router_Match_sound {HandlerT : Type} (r : Router HandlerT)
  (conditions : CondFlags) (path : str) (m : Match HandlerT)
  (err : option error)
  (Hmatch : Router_Match r conditions path = (Some m, err)) :
  err = None
  /\ path = BasePath r ++ Path m
  /\ Routes r !! MIndex m = Some (MRoute m)
  /\ cond_skip (Conditions (MRoute m)) conditions = false
  /\ HasPrefix (Path m) (EntryPrefix (MRoute m)) = true
  /\ (values m = None <-> Pattern (MRoute m) = None)
  /\ (forall vals, values m = Some vals ->
        length vals = size (Vars (MRoute m))).
Proof.
  destruct (Router_Match_path _ _ _ _ _ Hmatch) as [-> Hpath].
  split; [done|]. split; [done|].
  apply Router_Match_Some in Hmatch as [Hm Hidx].
  split; [done|].
  destruct (match_route_admits _ _ _ _ _ Hm) as [Hcond Hpre].
  split; [done|]. split; [done|].
  unfold match_route in Hm. rewrite Hcond, Hpre, andb_false_r in Hm.
  destruct (Pattern (MRoute m)) as [rx|].
  - destruct (Nat.eqb _ _) eqn:Hlen; [|done].
    apply Nat.eqb_eq in Hlen.
    assert (values m = Some (drop 1 (FindStringSubmatch rx (Path m))))
      as Hv by (by destruct m; simplify_eq).
    rewrite Hv. split; [done|]. intros vals [= <-].
    rewrite length_drop. lia.
  - destruct (IsPrefix (MRoute m) || str_eqb _ _); [|done].
    assert (values m = None) as Hv by (by destruct m; simplify_eq).
    by rewrite Hv.
Qed.

Lemma Router_Match_sound_witness :
  lit "/user/42/edit" = BasePath scenarioA ++ Path user_match
  /\ Routes scenarioA !! MIndex user_match = Some (MRoute user_match)
  /\ (forall vals, values user_match = Some vals ->
        length vals = size (Vars (MRoute user_match))).
Proof.
  assert (Router_Match scenarioA 0%N (lit "/user/42/edit")
          = (Some user_match, None)) as Hmatch
    by (vm_compute; reflexivity).
  destruct (Router_Match_sound scenarioA 0%N (lit "/user/42/edit")
              user_match None Hmatch)
    as (_ & Hpath & Hidx & _ & _ & _ & Hlen).
  split; [exact Hpath|]. split; [exact Hidx|exact Hlen].
Defined.

(** ** Further properties of the conditions *)

(** Splits the hypothesis that a pair is one of [methods] into its nine
    cases. *)
Ltac each_method H :=
  unfold methods in H;
  repeat (apply elem_of_cons in H as [H|H]; [injection H as -> ->|]);
  [..|by apply elem_of_nil in H].

Lemma method_bit_Some tok bit :
  method_bit tok = Some bit
  <-> exists name, (bit, name) ∈ methods /\ tok = lit name.
Proof.
  split.
  - unfold method_bit, methods. intros Hbit.
    repeat match type of Hbit with
           | (if str_eqb tok ?s then _ else _) = _ =>
               let Heq := fresh "Heq" in
               destruct (str_eqb tok s) eqn:Heq;
               [apply str_eqb_eq in Heq; injection Hbit as <-;
                eexists; split; [|exact Heq]; set_solver|]
           end.
    done.
  - intros (name & Hin & ->). each_method Hin; by vm_compute.
Qed.

Lemma method_bit_None tok : method_bit tok = None <-> tok ∉ method_names.
Proof.
  unfold method_names. rewrite list_elem_of_fmap. split.
  - intros Hnone ([bit name] & -> & Hin).
    assert (method_bit (lit name) = Some bit) as Hsome
      by (apply method_bit_Some; by exists name).
    simpl in Hnone. congruence.
  - intros Hno. destruct (method_bit tok) as [bit|] eqn:Hbit; [|done].
    apply method_bit_Some in Hbit as (name & Hin & ->).
    destruct Hno. by exists (bit, name).
Qed.

Lemma has_flag_lor f b bit :
  has_flag (N.lor f b) bit = has_flag f bit || has_flag b bit.
Proof.
  unfold has_flag. rewrite N.land_lor_distr_l.
  destruct (N.eqb (N.land f bit) 0) eqn:Hf;
    destruct (N.eqb (N.land b bit) 0) eqn:Hb; simpl.
  - apply N.eqb_eq in Hf, Hb. by rewrite Hf, Hb.
  - apply N.eqb_eq in Hf. by rewrite Hf, N.lor_0_l, Hb.
  - apply negb_true_iff, N.eqb_neq. apply N.eqb_neq in Hf.
    intros [? ?]%N.lor_eq_0_iff. done.
  - apply negb_true_iff, N.eqb_neq. apply N.eqb_neq in Hf.
    intros [? ?]%N.lor_eq_0_iff. done.
Qed.

Lemma method_bits_apart b nm bit name :
  (b, nm) ∈ methods -> (bit, name) ∈ methods ->
  has_flag b bit = true <-> lit nm = lit name.
Proof.
  intros Hb Hbit. each_method Hb; each_method Hbit.
  all: split; intros Heq; try reflexivity; vm_compute in Heq; discriminate.
Qed.

Lemma method_bit_defined b nm :
  (b, nm) ∈ methods -> N.land b all_methods = b.
Proof. intros Hb. each_method Hb; by vm_compute. Qed.

Lemma ParseCondFlags_loop_flags tokens : forall f0 f,
  ParseCondFlags_loop f0 tokens = (f, None) ->
  Forall (fun tok => tok ∈ method_names) tokens
  /\ (N.land f0 all_methods = f0 -> N.land f all_methods = f)
  /\ forall bit name, (bit, name) ∈ methods ->
       has_flag f bit = true
       <-> has_flag f0 bit = true \/ lit name ∈ tokens.
Proof.
  induction tokens as [|tok rest IH]; intros f0 f; simpl.
  - intros [= <-]. split; [constructor|]. split; [done|].
    intros bit name _. split; [by left|]. by intros [?|?%elem_of_nil].
  - destruct (method_bit tok) as [b|] eqn:Hb; [|done].
    intros Hloop. apply IH in Hloop as (Hrest & Hdef & Hbits).
    pose proof Hb as Hb'. apply method_bit_Some in Hb' as (nm & Hnm & ->).
    split; [|split].
    + constructor; [|done]. unfold method_names. apply list_elem_of_fmap.
      by exists (b, nm).
    + intros Hf0. apply Hdef. rewrite N.land_lor_distr_l, Hf0.
      by rewrite (method_bit_defined b nm).
    + intros bit name Hbit. rewrite (Hbits bit name Hbit), has_flag_lor.
      rewrite orb_true_iff, (method_bits_apart b nm bit name) by done.
      rewrite elem_of_cons. split.
      * intros [[?|?]|?]; [by left|right; by left|right; by right].
      * intros [?|[?|?]]; [left; by left|left; by right|by right].
Qed.

Lemma ParseCondFlags_loop_valid tokens : forall f0,
  Forall (fun tok => tok ∈ method_names) tokens ->
  exists f, ParseCondFlags_loop f0 tokens = (f, None).
Proof.
  induction tokens as [|tok rest IH]; intros f0 Hall; simpl.
  - by eexists.
  - apply Forall_cons in Hall as [Htok Hrest].
    destruct (method_bit tok) as [b|] eqn:Hb.
    + by apply IH.
    + apply method_bit_None in Hb. done.
Qed.

Lemma ParseCondFlags_as_loop tokens :
  tokens <> [lit "*"] ->
  ParseCondFlags tokens = ParseCondFlags_loop 0%N tokens.
Proof.
  intros Hne. unfold ParseCondFlags.
  destruct tokens as [|tok [|tok2 rest]]; try done.
  destruct (str_eqb tok (lit "*")) eqn:Heq; [|done].
  apply str_eqb_eq in Heq. by subst.
Qed.

(** ParseCondFlags, accepted token lists: the call returns without an
    error exactly for the list that holds only "*" and for the lists of
    method names (the empty list among them), so "*" next to any other token
    is an error. *)
Theorem ParseCondFlags_accepts (tokens : list str) :
  snd (ParseCondFlags tokens) = None
  <-> tokens = [lit "*"] \/ Forall (fun tok => tok ∈ method_names) tokens.
Proof.
  destruct (decide (tokens = [lit "*"])) as [->|Hne].
  - split; [by left|]. intros _. by vm_compute.
  - rewrite ParseCondFlags_as_loop by done. split.
    + destruct (ParseCondFlags_loop 0%N tokens) as [f [e|]] eqn:Hloop;
        [done|]. intros _. right.
      by apply ParseCondFlags_loop_flags in Hloop as [? _].
    + intros [?|Hall]; [done|].
      by destruct (ParseCondFlags_loop_valid tokens 0%N Hall) as [f ->].
Qed.

(** ParseCondFlags, accepted token lists: the bit of a method is set in the
    result exactly when the name of the method is among the tokens, whatever
    their order and however often they occur; no other bit is set; and the
    result is what its own rendering parses to. *)
Theorem ParseCondFlags_sets_named_bits (tokens : list str) (f : CondFlags)
  (Hparse : ParseCondFlags tokens = (f, None)) :
  (forall bit name, (bit, name) ∈ methods ->
     has_flag f bit = true <-> lit name ∈ tokens)
  /\ N.land f all_methods = f
  /\ ParseCondFlags (Split_bar (CondFlags_String f)) = (f, None).
Proof.
  assert ((forall bit name, (bit, name) ∈ methods ->
             has_flag f bit = true <-> lit name ∈ tokens)
          /\ N.land f all_methods = f) as [Hbits Hdef].
  { destruct (decide (tokens = [lit "*"])) as [->|Hne].
    - assert (f = 0%N) as -> by (vm_compute in Hparse; congruence).
      split; [|done]. intros bit name Hin. split; [by vm_compute|].
      intros Hstar%list_elem_of_singleton.
      each_method Hin; vm_compute in Hstar; discriminate.
    - rewrite ParseCondFlags_as_loop in Hparse by done.
      apply ParseCondFlags_loop_flags in Hparse as (_ & Hdef & Hbits).
      split; [|by apply Hdef].
      intros bit name Hin. rewrite (Hbits bit name Hin).
      split; [|by right]. intros [Hz|?]; [|done]. by vm_compute in Hz. }
  split; [done|]. split; [done|].
  apply parses_back_eq. apply defined_bits_below in Hdef.
  clear Hparse Hbits. revert f Hdef. apply below_512. by vm_compute.
Qed.

Lemma ParseCondFlags_sets_named_bits_witness :
  ParseCondFlags [lit "POST"; lit "GET"; lit "POST"] = (65%N, None)
  /\ (has_flag 65%N CondMethodPOST = true
      <-> lit "POST" ∈ [lit "POST"; lit "GET"; lit "POST"])
  /\ ParseCondFlags (Split_bar (CondFlags_String 65%N)) = (65%N, None).
Proof.
  assert (ParseCondFlags [lit "POST"; lit "GET"; lit "POST"] = (65%N, None))
    as Hparse by (vm_compute; reflexivity).
  destruct (ParseCondFlags_sets_named_bits _ _ Hparse) as (Hbits & _ & Hback).
  split; [exact Hparse|]. split; [|exact Hback].
  apply (Hbits CondMethodPOST "POST"%string). unfold methods.
  do 6 apply list_elem_of_further. apply list_elem_of_here.
Defined.

(** ParseCondFlags, rejected token lists: the error names the first token
    that is not a method name, and the flags returned with it are those of
    the tokens before it. *)
Theorem ParseCondFlags_first_invalid (valid : list str) (bad : str)
  (rest : list str)
  (Hvalid : Forall (fun tok => tok ∈ method_names) valid)
  (Hbad : bad ∉ method_names)
  (Hstar : valid ++ bad :: rest <> [lit "*"]) :
  ParseCondFlags (valid ++ bad :: rest)
  = (fst (ParseCondFlags valid), Some (InvalidCondition bad)).
Proof.
  rewrite ParseCondFlags_as_loop by done.
  assert (valid <> [lit "*"]) as Hv.
  { intros ->. apply Forall_cons in Hvalid as [Hin _].
    apply method_bit_None in Hin; [done|]. by vm_compute. }
  rewrite (ParseCondFlags_as_loop valid) by done.
  generalize 0%N. clear Hstar Hv.
  induction valid as [|tok valid IH]; intros f0; simpl.
  - apply method_bit_None in Hbad. by rewrite Hbad.
  - apply Forall_cons in Hvalid as [Htok Hvalid].
    destruct (method_bit tok) as [b|] eqn:Hb.
    + by apply IH.
    + apply method_bit_None in Hb. done.
Qed.

Lemma ParseCondFlags_first_invalid_witness :
  ParseCondFlags [lit "GET"; lit "*"; lit "POST"]
  = (CondMethodGET, Some (InvalidCondition (lit "*"))).
Proof.
  apply (ParseCondFlags_first_invalid [lit "GET"] (lit "*") [lit "POST"]).
  - apply Forall_cons_2; [|apply Forall_nil_2]. unfold method_names, methods.
    simpl. apply list_elem_of_here.
  - apply method_bit_None. vm_compute. reflexivity.
  - discriminate.
Defined.

(** String, undefined bits: rendering looks at the nine method bits only,
    so a bitset renders as its defined part does, a non-zero bitset without
    a defined bit renders as "*", and parsing a rendering gives the defined
    part of the bitset back. *)
Theorem CondFlags_String_defined_part (fl : CondFlags) :
  CondFlags_String fl = CondFlags_String (N.land fl all_methods)
  /\ (N.land fl all_methods = 0%N -> CondFlags_String fl = lit "*")
  /\ ParseCondFlags (Split_bar (CondFlags_String fl))
     = (N.land fl all_methods, None).
Proof.
  assert (forall bit name, (bit, name) ∈ methods ->
            has_flag (N.land fl all_methods) bit = has_flag fl bit) as Hflag.
  { intros bit name Hin. unfold has_flag. rewrite <- N.land_assoc.
    rewrite (N.land_comm all_methods), (method_bit_defined bit name) by done.
    done. }
  assert (CondFlags_String fl = CondFlags_String (N.land fl all_methods))
    as Heq.
  { assert (forall k bit name, methods !! k = Some (bit, name) ->
              has_flag (N.land fl all_methods) bit = has_flag fl bit) as Hk.
    { intros k bit name Hlook. apply (Hflag bit name).
      by eapply list_elem_of_lookup_2. }
    destruct (N.eqb (N.land fl all_methods) 0) eqn:Hg.
    - apply N.eqb_eq in Hg. rewrite Hg.
      unfold CondFlags_String, write_if.
      rewrite <- (Hk 0 _ _ eq_refl), <- (Hk 1 _ _ eq_refl),
        <- (Hk 2 _ _ eq_refl), <- (Hk 3 _ _ eq_refl), <- (Hk 4 _ _ eq_refl),
        <- (Hk 5 _ _ eq_refl), <- (Hk 6 _ _ eq_refl), <- (Hk 7 _ _ eq_refl),
        <- (Hk 8 _ _ eq_refl).
      rewrite Hg. by destruct (N.eqb fl 0).
    - assert (N.eqb fl 0 = false) as Hz.
      { apply N.eqb_neq. intros ->. by vm_compute in Hg. }
      unfold CondFlags_String, write_if. rewrite Hz, Hg.
      by rewrite (Hk 0 _ _ eq_refl), (Hk 1 _ _ eq_refl),
        (Hk 2 _ _ eq_refl), (Hk 3 _ _ eq_refl), (Hk 4 _ _ eq_refl),
        (Hk 5 _ _ eq_refl), (Hk 6 _ _ eq_refl), (Hk 7 _ _ eq_refl),
        (Hk 8 _ _ eq_refl). }
  split; [done|]. split.
  - intros Hz. rewrite Heq, Hz. by vm_compute.
  - rewrite Heq. apply parses_back_eq.
    assert (N.land fl all_methods < 512)%N as Hlt.
    { apply defined_bits_below. rewrite <- N.land_assoc.
      by rewrite N.land_diag. }
    revert Hlt. generalize (N.land fl all_methods). apply below_512.
    by vm_compute.
Qed.

(** ** Further properties of matches and compiled routes *)

(** Var and Vars: whenever [Vars] returns (no index of the route is past
    the values), [Var] returns for every name what [Vars] maps it to, and
    for a name that [Vars] does not hold the first fallback, or the empty
    string without one. *)
Theorem Match_Var_reads_Vars {HandlerT : Type} (m : Match HandlerT)
  (kv : gmap str str) (name : str) (fallback : list str)
  (Hvars : Match_Vars m = Some kv) :
  Match_Var m name fallback
  = Some (default (default [] (head fallback)) (kv !! name)).
Proof.
  unfold Match_Vars in Hvars. unfold Match_Var.
  destruct (bool_decide _) eqn:Hall; [|done].
  apply bool_decide_eq_true in Hall. injection Hvars as <-.
  rewrite lookup_fmap.
  destruct (Vars (MRoute m) !! name) as [i|] eqn:Hi; simpl.
  - specialize (Hall name i Hi). simpl in Hall.
    destruct (values m) as [vals|]; simpl in *; [|lia].
    by destruct (lookup_lt_is_Some_2 _ _ Hall) as [v ->].
  - by destruct fallback.
Qed.

Lemma Match_Var_reads_Vars_witness :
  Match_Var user_match (lit "id") [] = Some (lit "42")
  /\ Match_Var user_match (lit "page") [lit "1"] = Some (lit "1").
Proof.
  assert (Match_Vars user_match
          = Some (default ∅ (Match_Vars user_match))) as Hvars
    by (vm_compute; reflexivity).
  split.
  - rewrite (Match_Var_reads_Vars user_match _ (lit "id") [] Hvars).
    vm_compute. reflexivity.
  - rewrite (Match_Var_reads_Vars user_match _ (lit "page") [lit "1"] Hvars).
    vm_compute. reflexivity.
Defined.

Section Compiled.

Context {HandlerT : Type}.
Implicit Types (route : Route HandlerT) (r : Router HandlerT).

Lemma filter_distinct {A} (P : A -> Prop) `{forall x, Decision (P x)}
  (l : list A) :
  (forall i j x, P x -> l !! i = Some x -> l !! j = Some x -> i = j) ->
  NoDup (filter P l).
Proof.
  induction l as [|x l IH]; intros Hinj; [constructor|].
  assert (NoDup (filter P l)) as Hl.
  { apply IH. intros i j y Hy Hi Hj.
    assert (S i = S j) by (by apply (Hinj (S i) (S j) y)). lia. }
  destruct (decide (P x)) as [Hx|Hx].
  - rewrite filter_cons_True by done. constructor; [|done].
    intros [_ Hin]%list_elem_of_filter.
    apply list_elem_of_lookup_1 in Hin as [k Hk].
    assert (0 = S k) by (by apply (Hinj 0 (S k) x)). lia.
  - by rewrite filter_cons_False.
Qed.

Lemma Route_Parse_segments ruleText (r0 : Route HandlerT) route :
  Route_Parse r0 ruleText = (route, None) ->
  Pattern route = None -> rule_segments ruleText = [].
Proof.
  intros Hparse Hpat.
  destruct (Route_Parse_literal _ _ _ Hparse Hpat) as (Hloc & _ & _).
  unfold rule_segments. by rewrite Hloc.
Qed.

End Compiled.

(** Parse, variable names: in a rule that compiles, the named variables are
    pairwise distinct (only the anonymous name "_" may be declared more than
    once), the map of the route holds exactly these names, each with the
    position of its declaration among all the variables of the rule. *)
Theorem Route_Parse_names_distinct {HandlerT : Type}
  (r0 route : Route HandlerT) (ruleText : str)
  (Hcompiled : Route_Parse r0 ruleText = (route, None)) :
  NoDup (filter (fun name => name <> lit "_")
                (seg_name <$> rule_segments ruleText))
  /\ (forall name j,
        Vars route !! name = Some j
        <-> name <> lit "_"
            /\ (seg_name <$> rule_segments ruleText) !! j = Some name).
Proof.
  destruct (Pattern route) as [rx|] eqn:Hpat.
  - destruct (Route_Parse_assembled _ _ _ _ Hcompiled Hpat) as (_ & HV & _).
    split; [|done]. apply filter_distinct. intros i j name Hname Hi Hj.
    assert (Vars route !! name = Some i) as Hvi by (by apply HV).
    assert (Vars route !! name = Some j) as Hvj by (by apply HV).
    congruence.
  - rewrite (Route_Parse_segments _ _ _ Hcompiled Hpat).
    destruct (Route_Parse_literal _ _ _ Hcompiled Hpat) as (_ & _ & ->).
    split; [constructor|]. intros name j. rewrite lookup_empty. simpl.
    split; [done|]. by intros [_ ?].
Qed.

Lemma Route_Parse_names_distinct_witness :
  (seg_name <$> rule_segments (lit "/{_}/{id}/{_}/{action}"))
  = [lit "_"; lit "id"; lit "_"; lit "action"]
  /\ snd (Route_Parse (HandlerT:=nat) Route_zero (lit "/{_}/{id}/{_}/{action}"))
     = None
  /\ Vars gaps_route !! lit "id" = Some 1
  /\ Vars gaps_route !! lit "action" = Some 3
  /\ Vars gaps_route !! lit "_" = None.
Proof.
  assert ((seg_name <$> rule_segments (lit "/{_}/{id}/{_}/{action}"))
          = [lit "_"; lit "id"; lit "_"; lit "action"]) as Hnames
    by (vm_compute; reflexivity).
  assert (Route_Parse Route_zero (lit "/{_}/{id}/{_}/{action}")
          = (gaps_route, None)) as Hcompiled
    by (vm_compute; reflexivity).
  split; [exact Hnames|]. split; [by rewrite Hcompiled|].
  destruct (Route_Parse_names_distinct Route_zero gaps_route _ Hcompiled)
    as [_ HV].
  rewrite Hnames in HV.
  split; [|split].
  - apply HV. split; [discriminate|reflexivity].
  - apply HV. split; [discriminate|reflexivity].
  - destruct (Vars gaps_route !! lit "_") as [j|] eqn:Hj; [|reflexivity].
    apply HV in Hj as [Hne _]. destruct (Hne eq_refl).
Defined.

(** Match, anonymous variables: inside the regexp fragment, a rule with
    plain custom patterns that declares an anonymous variable "_" compiles
    to a route that no ASCII path matches, whatever the table it is in: the
    pattern yields a submatch for the anonymous variable too, and the count
    of the submatches is compared with the number of named variables. *)
Theorem anonymous_variable_never_matches {HandlerT : Type}
  (r : Router HandlerT) (ruleText : str) (route : Route HandlerT)
  (conditions : CondFlags) (path : str) (m : Match HandlerT)
  (Hcompiled : Route_Parse Route_zero ruleText = (route, None))
  (Hplain : Forall (fun sg => plain_pattern (seg_pat sg))
                   (rule_segments ruleText))
  (Hanon : lit "_" ∈ (seg_name <$> rule_segments ruleText))
  (Hascii : ascii_text path = true)
  (Hmatch : Router_Match r conditions path = (Some m, None)) :
  forall handler, MRoute m <> set_Handler route handler.
Proof.
  intros handler Hroute.
  apply Router_Match_Some in Hmatch as [Hm _]. rewrite Hroute in Hm.
  destruct (match_route_values _ _ _ _ _ _ _ Hcompiled Hplain Hm)
    as (Hlen & _ & Hsize).
  destruct (Pattern route) as [rx|] eqn:Hpat.
  - destruct (Route_Parse_assembled _ _ _ _ Hcompiled Hpat) as (_ & _ & HS).
    assert (Forall (fun name => name <> lit "_")
                   (seg_name <$> rule_segments ruleText)) as Hnamed.
    { eapply filter_keeps_all. rewrite <- HS, Hsize, Hlen.
      by rewrite length_fmap. }
    rewrite Forall_forall in Hnamed. by apply (Hnamed (lit "_")).
  - rewrite (Route_Parse_segments _ _ _ Hcompiled Hpat) in Hanon.
    by apply elem_of_nil in Hanon.
Qed.

Lemma anonymous_variable_never_matches_witness :
  Route_Parse Route_zero (lit "/a/{_}") = (anon_route, None)
  /\ Routes named_after_anon !! 0 = Some (set_Handler anon_route (Some 1))
  /\ exists m,
       Router_Match named_after_anon 0%N (lit "/a/b") = (Some m, None)
       /\ MIndex m = 1
       /\ forall handler, MRoute m <> set_Handler anon_route handler.
Proof.
  assert (Route_Parse Route_zero (lit "/a/{_}") = (anon_route, None))
    as Hcompiled by (vm_compute; reflexivity).
  split; [exact Hcompiled|]. split; [vm_compute; reflexivity|].
  assert (exists m, Router_Match named_after_anon 0%N (lit "/a/b")
                    = (Some m, None) /\ MIndex m = 1) as (m & Hmatch & Hidx)
    by (eexists; split; vm_compute; reflexivity).
  exists m. split; [exact Hmatch|]. split; [exact Hidx|].
  assert (rule_segments (lit "/a/{_}")
          = [ {| seg_chunk := lit "/a/"; seg_name := lit "_";
                 seg_pat := lit "[^/]+" |} ]) as Hsegs
    by (vm_compute; reflexivity).
  apply (anonymous_variable_never_matches named_after_anon (lit "/a/{_}")
           anon_route 0%N (lit "/a/b") m Hcompiled).
  - rewrite Hsegs. apply Forall_cons_2; [|apply Forall_nil_2].
    eexists; split; vm_compute; reflexivity.
  - rewrite Hsegs. apply list_elem_of_here.
  - reflexivity.
  - exact Hmatch.
Defined.

Section Flags.

Context {HandlerT : Type}.
Implicit Types (route : Route HandlerT).

Lemma last_drop_lt {A} (l : list A) : forall i,
  i < length l -> last (drop i l) = last l.
Proof.
  induction l as [|x l IH]; intros i Hi; [simpl in Hi; lia|].
  destruct i as [|i]; [done|]. simpl in *.
  rewrite IH by lia. destruct l; [simpl in Hi; lia|done].
Qed.

Lemma Route_Parse_flags ruleText (r0 : Route HandlerT) route :
  Route_Parse r0 ruleText = (route, None) ->
  IsPrefix route
  = IsPrefix r0 || bool_decide (last (TrimSpace ruleText) = Some (ch "/"))
  /\ Handler route = Handler r0
  /\ (Pattern route = None <-> rule_locations ruleText = []).
Proof.
  unfold Route_Parse, rule_locations, rule_path. intros Hp.
  destruct (IndexByte (TrimSpace ruleText) (ch "/")) as [i|] eqn:Hi; [|done].
  apply IndexByte_Some in Hi.
  pose proof (last_drop_lt (TrimSpace ruleText) i Hi) as Hlast.
  repeat case_match; simplify_eq; simpl.
  all: try congruence.
  all: try match goal with
       | Hv : Parse_vars _ _ _ _ _ _ = _ |- _ =>
           apply Parse_vars_text in Hv as (_ & _ & -> & _ & ->)
       end.
  all: simpl.
  all: rewrite ?Hlast in *.
  all: repeat match goal with
         | Hb : bool_decide _ = _ |- _ => rewrite Hb
         end.
  all: rewrite ?orb_true_r, ?orb_false_r.
  all: split; [done|]; split; [done|].
  all: split; try done.
  all: try match goal with
       | Hl : (length ?l =? 0) = true |- _ -> ?l = [] =>
           intros _; apply Nat.eqb_eq in Hl; by destruct l
       end.
  all: try match goal with
       | Hl : (length ?l =? 0) = false |- ?l = [] -> _ =>
           intros Hnil; by rewrite Hnil in Hl
       end.
Qed.

End Flags.

(** Parse, flags: a successful [Parse] leaves the route a subtree route
    exactly when it was one before the call or the trimmed rule text ends in
    "/" (so the call never clears the flag, and a rule ending in "/!" is not
    a subtree rule); it does not touch the handler; and the route gets a
    compiled pattern exactly when the rule declares a variable. *)
Theorem Route_Parse_sets_flags {HandlerT : Type} (r0 route : Route HandlerT)
  (ruleText : str)
  (Hcompiled : Route_Parse r0 ruleText = (route, None)) :
  IsPrefix route
  = IsPrefix r0 || bool_decide (last (TrimSpace ruleText) = Some (ch "/"))
  /\ Handler route = Handler r0
  /\ (Pattern route = None <-> rule_segments ruleText = []).
Proof.
  destruct (Route_Parse_flags _ _ _ Hcompiled) as (Hpre & Hh & Hpat).
  split; [done|]. split; [done|]. rewrite Hpat. unfold rule_segments.
  by destruct (rule_locations ruleText).
Qed.

Lemma Route_Parse_sets_flags_witness :
  Route_Parse Route_zero (lit "GET /widgets/!") = (bang_route, None)
  /\ IsPrefix bang_route = false
  /\ EntryPrefix bang_route = lit "/widgets/"
  /\ Pattern bang_route = None.
Proof.
  assert (Route_Parse Route_zero (lit "GET /widgets/!") = (bang_route, None))
    as Hcompiled by (vm_compute; reflexivity).
  destruct (Route_Parse_sets_flags Route_zero bang_route _ Hcompiled)
    as (Hpre & _ & Hpat).
  split; [exact Hcompiled|]. split; [|split].
  - rewrite Hpre. vm_compute. reflexivity.
  - vm_compute. reflexivity.
  - apply Hpat. vm_compute. reflexivity.
Defined.

(** String of a compiled route: the conditions as [CondFlags.String]
    renders them, then the path of the rule when it declares no variable,
    else the expression assembled for it (the quoted chunks, a group per
    variable, the end anchor unless the route is a subtree route). *)
Theorem Route_String_compiled {HandlerT : Type} (r0 route : Route HandlerT)
  (ruleText : str)
  (Hcompiled : Route_Parse r0 ruleText = (route, None)) :
  Route_String route
  = ch "{" :: CondFlags_String (Conditions route) ++ ch " "
      :: (match rule_segments ruleText with
          | [] => rule_path ruleText
          | _ :: _ => rule_expr ruleText (IsPrefix route)
          end) ++ [ch "}"].
Proof.
  unfold Route_String.
  assert (Pattern route = None <-> rule_segments ruleText = []) as Hsegs.
  { destruct (Route_Parse_flags _ _ _ Hcompiled) as (_ & _ & ->).
    unfold rule_segments. by destruct (rule_locations ruleText). }
  destruct (Pattern route) as [rx|] eqn:Hpat.
  - destruct (rule_segments ruleText) eqn:Hs; [by destruct Hsegs as [_ Hn]; specialize (Hn eq_refl)|].
    destruct (Route_Parse_assembled _ _ _ _ Hcompiled Hpat) as (Hc & _ & _).
    rewrite Hs in Hc. unfold rule_expr. rewrite Hs.
    assert (forall e, regexp_Compile e = inr rx -> re_expr rx = e) as Hexpr.
    { intros e He. unfold regexp_Compile in He.
      repeat case_match; by simplify_eq. }
    by rewrite (Hexpr _ Hc).
  - rewrite (proj1 Hsegs eq_refl).
    by destruct (Route_Parse_literal _ _ _ Hcompiled Hpat) as (_ & -> & _).
Qed.

Lemma Route_String_compiled_witness :
  Route_String user_route = lit "{* ^/user/([0-9]+)/([^/]+)$}"
  /\ Route_String widgets_route = lit "{GET /widgets/}".
Proof.
  split.
  - rewrite (Route_String_compiled Route_zero user_route
               (lit "/user/{id:[0-9]+}/{action}"))
      by (vm_compute; reflexivity).
    vm_compute. reflexivity.
  - rewrite (Route_String_compiled Route_zero widgets_route
               (lit "GET /widgets/"))
      by (vm_compute; reflexivity).
    vm_compute. reflexivity.
Defined.

(** ** The HTTP router *)

Lemma request_conditions (method : str) :
  fst (ParseCondFlags [method]) = 0%N
  \/ exists bit name,
       (bit, name) ∈ methods /\ method = lit name
       /\ fst (ParseCondFlags [method]) = bit.
Proof.
  unfold ParseCondFlags.
  destruct (str_eqb method (lit "*")); [by left|]. simpl.
  destruct (method_bit method) as [bit|] eqn:Hbit; [|by left].
  right. apply method_bit_Some in Hbit as (name & Hin & ->).
  exists bit, name. by rewrite N.lor_0_l.
Qed.





Lemma CondFlags_String_defined_part_witness :
  CondFlags_String 513%N = lit "GET"
  /\ CondFlags_String 512%N = lit "*"
  /\ ParseCondFlags (Split_bar (CondFlags_String 513%N)) = (1%N, None).
Proof.
  destruct (CondFlags_String_defined_part 513%N) as (Heq & _ & Hback).
  destruct (CondFlags_String_defined_part 512%N) as (_ & Hstar & _).
  split; [rewrite Heq; vm_compute; reflexivity|].
  split; [apply Hstar; vm_compute; reflexivity|].
  rewrite Hback. vm_compute. reflexivity.
Defined.
